(** * RoboBrain reasoning parser: a shallow embedding and its properties

    Source: [vllm/reasoning/robobrain_reasoning_parser.py], class
    [RoboBrainReasoningParser].  The parser splits model output marked with
    the literal delimiters [<think>], [</think>], [<answer>], [</answer>]
    into a reasoning span and an answer span, either on a finished text
    ([extract_reasoning_content]) or delta by delta
    ([extract_reasoning_content_streaming]).

    Python [str] values are sequences of Unicode code points; they are
    modelled as lists of code points ([N]).  Indices returned by [str.find]
    are integers ([Z]), with [-1] when there is no occurrence, and slices
    follow Python's clamping rules. *)

From Stdlib Require Import String Ascii.
From Stdlib Require Import List ZArith NArith Lia Bool Sorted.
Import ListNotations.

(** ** Python strings *)

Module PyStr.

Definition char := N.
Definition str := list char.

(** A string literal of the source, as a list of code points. *)
Definition lit (s : string) : str :=
  List.map N_of_ascii (list_ascii_of_string s).

(** [len(s)] *)
Definition len (s : str) : Z := Z.of_nat (length s).

(** [s.startswith(p)] *)
Fixpoint startswith (p s : str) : bool :=
  match p, s with
  | [], _ => true
  | _ :: _, [] => false
  | a :: p', b :: s' => N.eqb a b && startswith p' s'
  end.

(** Lowest index at which [p] occurs in [s], if any: the search behind
    both [p in s] and [s.find(p)]. *)
Fixpoint index_of (p s : str) : option nat :=
  match s with
  | [] => if startswith p [] then Some O else None
  | _ :: s' =>
      if startswith p s then Some O else option_map S (index_of p s')
  end.

(** [p in s] *)
Definition str_in (p s : str) : bool :=
  match index_of p s with Some _ => true | None => false end.

(** [s.find(p)] *)
Definition find (p s : str) : Z :=
  match index_of p s with Some i => Z.of_nat i | None => (-1)%Z end.

(** A slice bound, as Python normalises it: a negative bound counts from
    the end, and the result is clamped to [0 .. len(s)]. *)
Definition clamp (n : nat) (i : Z) : nat :=
  if (i <? 0)%Z then Z.to_nat (Z.max 0 (i + Z.of_nat n))
  else Nat.min (Z.to_nat i) n.

(** [s[a:b]] *)
Definition slice (s : str) (a b : Z) : str :=
  let lo := clamp (length s) a in
  let hi := clamp (length s) b in
  firstn (hi - lo) (skipn lo s).

(** [s[a:]] *)
Definition slice_from (s : str) (a : Z) : str :=
  skipn (clamp (length s) a) s.

(** [s[:b]] *)
Definition slice_to (s : str) (b : Z) : str :=
  firstn (clamp (length s) b) s.

(** [s.replace(old, new)]: occurrences of [old] are replaced from left to
    right, without overlap, in a single pass.  [skip] counts the characters
    of an occurrence that are still to be dropped. *)
Fixpoint replace_go (old new s : str) (skip : nat) : str :=
  match s with
  | [] => []
  | c :: s' =>
      match skip with
      | S k => replace_go old new s' k
      | O =>
          if startswith old s
          then new ++ replace_go old new s' (length old - 1)
          else c :: replace_go old new s' O
      end
  end.

Definition replace (old new s : str) : str :=
  match old with
  | [] => new ++ flat_map (fun c => c :: new) s
  | _ :: _ => replace_go old new s O
  end.

(** [c.isspace()]: the code points Python treats as whitespace. *)
Definition isspace (c : char) : bool :=
  ((9 <=? c) && (c <=? 13) || (28 <=? c) && (c <=? 32)
   || (c =? 133) || (c =? 160) || (c =? 5760)
   || (8192 <=? c) && (c <=? 8202)
   || (c =? 8232) || (c =? 8233) || (c =? 8239) || (c =? 8287)
   || (c =? 12288))%N.

(** [s.lstrip()], [s.rstrip()], [s.strip()] *)
Fixpoint lstrip (s : str) : str :=
  match s with
  | [] => []
  | c :: s' => if isspace c then lstrip s' else s
  end.

Definition rstrip (s : str) : str := rev (lstrip (rev s)).

Definition strip (s : str) : str := rstrip (lstrip s).

(** [s.split(sep, maxsplit)] for a non-empty separator. *)
Fixpoint split (sep s : str) (maxsplit : nat) : list str :=
  match maxsplit with
  | O => [s]
  | S k =>
      match index_of sep s with
      | None => [s]
      | Some i => firstn i s :: split sep (skipn (i + length sep) s) k
      end
  end.

(** [s if s else None]: the empty string is falsy. *)
Definition truthy (s : str) : option str :=
  match s with [] => None | _ :: _ => Some s end.

End PyStr.

Import PyStr.

(** ** The parser object *)

(** The tokenizer capability the parser is constructed with: only
    [decode(ids, skip_special_tokens=...)] and
    [encode(text, add_special_tokens=...)] are used.  Token ids are Python
    integers. *)
Record PreTrainedTokenizerBase : Type := {
  decode : list Z -> bool -> str;
  encode : str -> bool -> list Z
}.

(** [self.current_state] takes three string values: initial, thinking
    and content. *)
Inductive state : Type := Initial | Thinking | Content.

(** The instance attributes set by [__init__]. *)
Record parser : Type := {
  model_tokenizer : PreTrainedTokenizerBase;
  current_state : state;
  buffer : str;
  thinking_complete : bool
}.

(** The two fields of [DeltaMessage] the parser fills; [None] is absent. *)
Record DeltaMessage : Type := {
  reasoning_content : option str;
  content : option str
}.

(** Text markers (class attributes). *)
Definition think_start : str := lit "<think>".
Definition think_end : str := lit "</think>".
Definition answer_start : str := lit "<answer>".
Definition answer_end : str := lit "</answer>".

(** [__init__] *)
Definition init (tokenizer : PreTrainedTokenizerBase) : parser :=
  {| model_tokenizer := tokenizer;
     current_state := Initial;
     buffer := [];
     thinking_complete := false |}.

(** Attribute assignments on [self]. *)
Definition set_current_state (self : parser) (s : state) : parser :=
  {| model_tokenizer := model_tokenizer self;
     current_state := s;
     buffer := buffer self;
     thinking_complete := thinking_complete self |}.

Definition set_buffer (self : parser) (b : str) : parser :=
  {| model_tokenizer := model_tokenizer self;
     current_state := current_state self;
     buffer := b;
     thinking_complete := thinking_complete self |}.

Definition set_thinking_complete (self : parser) (b : bool) : parser :=
  {| model_tokenizer := model_tokenizer self;
     current_state := current_state self;
     buffer := buffer self;
     thinking_complete := b |}.

(** Removal of the answer tags from a piece of text:
    [replace] of [answer_start] by the empty string, then [replace] of
    [answer_end] by the empty string in the result. *)
Definition strip_answer_tags (s : str) : str :=
  replace answer_end [] (replace answer_start [] s).

(** ** Token-level helpers *)

(** [is_reasoning_end] *)
Definition is_reasoning_end (self : parser) (input_ids : list Z) : bool :=
  let text := decode (model_tokenizer self) input_ids true in
  str_in think_end text.

(** [extract_content_ids] *)
Definition extract_content_ids (self : parser) (input_ids : list Z)
  : list Z :=
  let text := decode (model_tokenizer self) input_ids true in
  if str_in think_end text then
    let parts := split think_end text 1 in
    if (1 <? length parts)%nat then
      let content_text := nth 1 parts [] in
      let content_text := strip_answer_tags content_text in
      encode (model_tokenizer self) content_text false
    else []
  else [].

(** ** Full-text extraction *)

(** The body of [extract_reasoning_content] before the final
    normalisation: the values of the locals [reasoning_content] and
    [answer_content] when the [if]/[elif] chain is left. *)
Definition classify (model_output : str) : option str * option str :=
  if str_in think_start model_output && str_in think_end model_output then
    let start_idx := (find think_start model_output + len think_start)%Z in
    let end_idx := find think_end model_output in
    let reasoning_content := strip (slice model_output start_idx end_idx) in
    let remaining :=
      strip (slice_from model_output (end_idx + len think_end)%Z) in
    let answer_content :=
      if str_in answer_start remaining && str_in answer_end remaining then
        let answer_start_idx :=
          (find answer_start remaining + len answer_start)%Z in
        let answer_end_idx := find answer_end remaining in
        strip (slice remaining answer_start_idx answer_end_idx)
      else if str_in answer_start remaining then
        let answer_start_idx :=
          (find answer_start remaining + len answer_start)%Z in
        strip (slice_from remaining answer_start_idx)
      else remaining in
    (Some reasoning_content, Some answer_content)
  else if str_in think_start model_output then
    let start_idx := (find think_start model_output + len think_start)%Z in
    (Some (strip (slice_from model_output start_idx)), None)
  else if str_in answer_start model_output && str_in answer_end model_output
  then
    let answer_start_idx :=
      (find answer_start model_output + len answer_start)%Z in
    let answer_end_idx := find answer_end model_output in
    (None, Some (strip (slice model_output answer_start_idx answer_end_idx)))
  else if str_in answer_start model_output then
    let answer_start_idx :=
      (find answer_start model_output + len answer_start)%Z in
    (None, Some (strip (slice_from model_output answer_start_idx)))
  else (None, Some (strip model_output)).

(** The final normalisation: a value that is the empty string becomes
    [None]. *)
Definition none_if_empty (x : option str) : option str :=
  match x with
  | Some [] => None
  | _ => x
  end.

(** [extract_reasoning_content]; the request is not inspected. *)
Definition extract_reasoning_content {ChatCompletionRequest : Type}
    (model_output : str) (request : ChatCompletionRequest)
  : option str * option str :=
  let '(reasoning_content, answer_content) := classify model_output in
  (none_if_empty reasoning_content, none_if_empty answer_content).

(** ** Streaming extraction *)

(** [extract_reasoning_content_streaming]: the returned message (or [None])
    together with the parser after the call. *)
Definition extract_reasoning_content_streaming (self : parser)
    (previous_text current_text delta_text : str)
    (previous_token_ids current_token_ids delta_token_ids : list Z)
  : option DeltaMessage * parser :=
  let self := set_buffer self current_text in
  match current_state self with
  | Initial =>
      if str_in think_start (buffer self) then
        let self := set_current_state self Thinking in
        if str_in think_end delta_text then
          let think_start_idx := find think_start delta_text in
          let think_end_idx := find think_end delta_text in
          if (think_start_idx <? think_end_idx)%Z then
            let reasoning :=
              slice delta_text (think_start_idx + len think_start)%Z
                    think_end_idx in
            let remaining :=
              slice_from delta_text (think_end_idx + len think_end)%Z in
            let remaining := strip_answer_tags remaining in
            let self := set_current_state self Content in
            let self := set_thinking_complete self true in
            (Some {| reasoning_content := truthy reasoning;
                     content := truthy remaining |}, self)
          else (None, self)
        else if str_in think_start delta_text then
          let idx := (find think_start delta_text + len think_start)%Z in
          let reasoning := slice_from delta_text idx in
          (Some {| reasoning_content := truthy reasoning;
                   content := None |}, self)
        else
          (Some {| reasoning_content := Some delta_text;
                   content := None |}, self)
      else if str_in answer_start delta_text then
        let self := set_current_state self Content in
        let content := strip_answer_tags delta_text in
        (Some {| reasoning_content := None; content := truthy content |},
         self)
      else
        match delta_text with
        | _ :: _ =>
            (Some {| reasoning_content := None;
                     content := Some delta_text |}, self)
        | [] => (None, self)
        end
  | Thinking =>
      if str_in think_end delta_text then
        let self := set_current_state self Content in
        let self := set_thinking_complete self true in
        let idx := find think_end delta_text in
        let reasoning := slice_to delta_text idx in
        let remaining := slice_from delta_text (idx + len think_end)%Z in
        let remaining := strip_answer_tags remaining in
        (Some {| reasoning_content := truthy reasoning;
                 content := truthy remaining |}, self)
      else
        (Some {| reasoning_content := Some delta_text; content := None |},
         self)
  | Content =>
      let content := strip_answer_tags delta_text in
      match content with
      | _ :: _ =>
          (Some {| reasoning_content := None; content := Some content |},
           self)
      | [] => (None, self)
      end
  end.

(** ** Sequences of streaming calls *)

(** The arguments of one call of [extract_reasoning_content_streaming]. *)
Record call : Type := {
  previous_text : str;
  current_text : str;
  delta_text : str;
  previous_token_ids : list Z;
  current_token_ids : list Z;
  delta_token_ids : list Z
}.

Definition step (self : parser) (c : call) : option DeltaMessage * parser :=
  extract_reasoning_content_streaming self
    (previous_text c) (current_text c) (delta_text c)
    (previous_token_ids c) (current_token_ids c) (delta_token_ids c).

(** Successive calls on one instance: the messages returned, in order, and
    the instance after the last call. *)
Fixpoint run (self : parser) (cs : list call)
  : list (option DeltaMessage) * parser :=
  match cs with
  | [] => ([], self)
  | c :: cs' =>
      let '(m, self') := step self c in
      let '(ms, self'') := run self' cs' in
      (m :: ms, self'')
  end.

(** The parsers an instance goes through: the one after each call. *)
Fixpoint trace (self : parser) (cs : list call) : list parser :=
  match cs with
  | [] => []
  | c :: cs' => snd (step self c) :: trace (snd (step self c)) cs'
  end.

(** The calls a caller makes when the output grows by the given deltas
    (text and token ids), starting from the text and ids already seen:
    each call gets the text so far, the text with the delta appended, and
    the delta. *)
Fixpoint feed (seen : str) (seen_ids : list Z)
    (deltas : list (str * list Z)) : list call :=
  match deltas with
  | [] => []
  | (d, ids) :: rest =>
      {| previous_text := seen;
         current_text := seen ++ d;
         delta_text := d;
         previous_token_ids := seen_ids;
         current_token_ids := seen_ids ++ ids;
         delta_token_ids := ids |}
      :: feed (seen ++ d) (seen_ids ++ ids) rest
  end.

(** The messages a fresh instance returns on a sequence of deltas. *)
Definition stream (tokenizer : PreTrainedTokenizerBase)
    (deltas : list (str * list Z)) : list (option DeltaMessage) :=
  fst (run (init tokenizer) (feed [] [] deltas)).

(** The fragments carried by a returned message; nothing when the call
    returned [None] or the field is absent. *)
Definition reasoning_fragment (m : option DeltaMessage) : str :=
  match m with
  | Some {| reasoning_content := Some r |} => r
  | _ => []
  end.

Definition content_fragment (m : option DeltaMessage) : str :=
  match m with
  | Some {| content := Some c |} => c
  | _ => []
  end.

(** Concatenation of all reasoning fragments, and of all content
    fragments, of a sequence of returned messages. *)
Definition streamed_reasoning (ms : list (option DeltaMessage)) : str :=
  concat (map reasoning_fragment ms).

Definition streamed_content (ms : list (option DeltaMessage)) : str :=
  concat (map content_fragment ms).

(** The final text of a sequence of deltas. *)
Definition final_text (deltas : list (str * list Z)) : str :=
  concat (map fst deltas).

(** Agreement of a span of the full-text extractor with a streamed
    concatenation up to the trim (and the normalisation of the empty
    string) that only the full-text extractor applies. *)
Definition agrees_up_to_trim (full : option str) (streamed : str) : Prop :=
  full = none_if_empty (Some (strip streamed)).

(** Order of the states: [initial < thinking < content]. *)
Definition rank (s : state) : nat :=
  match s with Initial => 0 | Thinking => 1 | Content => 2 end.

(** [p] occurs in [s] as a substring. *)
Definition substring (p s : str) : Prop :=
  exists pre post, s = pre ++ p ++ post.

(** No proper non-empty suffix of [p] is a prefix of [p]: two occurrences
    of [p] cannot overlap. *)
Definition border_free (p : str) : bool :=
  forallb (fun k => negb (startswith (skipn k p) p))
          (seq 1 (length p - 1)).

(** ** The spans, in the words of the specification *)

(** The text strictly between the first occurrence of [a] and the first
    occurrence of [b] in [s] (empty when there is none). *)
Definition between_first (a b s : str) : str :=
  match index_of a s, index_of b s with
  | Some i, Some j => firstn (j - (i + length a)) (skipn (i + length a) s)
  | _, _ => []
  end.

(** The text after the first occurrence of [a] in [s]. *)
Definition after_first (a s : str) : str :=
  match index_of a s with
  | Some i => skipn (i + length a) s
  | None => []
  end.

(** The answer span of the trimmed remainder after the first
    [think_end]. *)
Definition spec_answer (remainder : str) : str :=
  if str_in answer_start remainder && str_in answer_end remainder
  then strip (between_first answer_start answer_end remainder)
  else if str_in answer_start remainder
  then strip (after_first answer_start remainder)
  else remainder.

(** The reasoning span of a text that has both think delimiters. *)
Definition spec_reasoning (text : str) : str :=
  strip (between_first think_start think_end text).

(** A value of the result pair: absent when the text is empty. *)
Definition absent_if_empty (s : str) : option str :=
  none_if_empty (Some s).

(** A value of the result pair as the documentation words it: the text,
    or nothing when the text is empty. *)
Definition present (s : str) : option str :=
  match s with
  | [] => None
  | _ :: _ => Some s
  end.

(** The text [<think>R</think><answer>A</answer>]. *)
Definition think_answer_text (R A : str) : str :=
  think_start ++ R ++ think_end ++ answer_start ++ A ++ answer_end.

(** [p] cannot begin inside [q], whatever follows [q]: at no position of
    [q] is the rest of [q] a prefix of [p], or [p] a prefix of it. *)
Definition cannot_begin_in (p q : str) : bool :=
  forallb (fun k => negb (startswith (skipn k q) p)
                    && negb (startswith p (skipn k q)))
          (seq 0 (length q)).

(** The positions at which the deltas end, counted from [n]. *)
Fixpoint boundaries (n : nat) (ds : list str) : list nat :=
  match ds with
  | [] => []
  | d :: rest => (n + length d) :: boundaries (n + length d) rest
  end.

(** Position [b] falls strictly inside the piece of length [size] that
    starts at [lo]. *)
Definition cuts (lo size b : nat) : Prop := lo < b < lo + size.

(** The claim that streaming and full-text extraction agree on a sequence
    of deltas: the concatenated fragments are the spans of the final text
    up to the trim. *)
Definition streaming_agrees_with_full {ChatCompletionRequest : Type}
    (tokenizer : PreTrainedTokenizerBase) (deltas : list (str * list Z))
    (request : ChatCompletionRequest) : Prop :=
  let ms := stream tokenizer deltas in
  let full := extract_reasoning_content (final_text deltas) request in
  agrees_up_to_trim (fst full) (streamed_reasoning ms)
  /\ agrees_up_to_trim (snd full) (streamed_content ms).

(** ** Layouts of a model output *)

(** A text of whitespace only. *)
Definition blank (w : str) : Prop := forallb isspace w = true.

(** What follows the think block, or stands alone as the output: a text
    without answer tags; a closed pair of answer tags around [A], with
    whitespace [w] after it; an answer that is opened and not closed.
    [Closing A w] is what is left of a tagged answer once [answer_start]
    has gone by. *)
Inductive answer_part : Type :=
| Bare (C : str)
| Tagged (A w : str)
| Opened (A : str)
| Closing (A w : str).

Definition part_text (p : answer_part) : str :=
  match p with
  | Bare C => C
  | Tagged A w => answer_start ++ A ++ answer_end ++ w
  | Opened A => answer_start ++ A
  | Closing A w => A ++ answer_end ++ w
  end.

(** The text of the part without its tags. *)
Definition part_visible (p : answer_part) : str :=
  match p with
  | Bare C => C
  | Tagged A w => A ++ w
  | Opened A => A
  | Closing A w => A ++ w
  end.

(** The text of the part holds no answer tag of its own, and what comes
    after a closed pair of tags is whitespace. *)
Definition part_plain (p : answer_part) : Prop :=
  ~ substring answer_start (part_visible p)
  /\ ~ substring answer_end (part_visible p)
  /\ match p with
     | Tagged _ w => blank w
     | Closing _ w => blank w
     | _ => True
     end.

(** A part as a model writes it: not the rest of one. *)
Definition whole_part (p : answer_part) : Prop :=
  match p with
  | Closing _ _ => False
  | _ => True
  end.

(** Position [b] falls strictly inside an answer tag of the part, which
    starts at position [lo]. *)
Definition part_cut (lo : nat) (p : answer_part) (b : nat) : Prop :=
  match p with
  | Bare _ => False
  | Tagged A _ =>
      cuts lo (length answer_start) b
      \/ cuts (lo + length answer_start + length A) (length answer_end) b
  | Opened A => cuts lo (length answer_start) b
  | Closing A _ => cuts (lo + length A) (length answer_end) b
  end.

(** The layouts of an output.  [Thought w pre R g p]: whitespace [w], any
    text [pre], a think block around [R], whitespace [g], and the part [p].
    [Unclosed w pre R]: the same up to a think block that is opened and not
    closed.  [Direct g p]: no thinking; whitespace [g] and the part [p]. *)
Inductive layout : Type :=
| Thought (w pre R g : str) (p : answer_part)
| Unclosed (w pre R : str)
| Direct (g : str) (p : answer_part).

Definition layout_text (L : layout) : str :=
  match L with
  | Thought w pre R g p =>
      w ++ pre ++ think_start ++ R ++ think_end ++ g ++ part_text p
  | Unclosed w pre R => w ++ pre ++ think_start ++ R
  | Direct g p => g ++ part_text p
  end.

Definition layout_reasoning (L : layout) : str :=
  match L with
  | Thought _ _ R _ _ => R
  | Unclosed _ _ R => R
  | Direct _ _ => []
  end.

Definition layout_content (L : layout) : str :=
  match L with
  | Thought _ _ _ g p => g ++ part_visible p
  | Unclosed _ _ _ => []
  | Direct g p => g ++ part_visible p
  end.

(** The whitespace a layout begins with, ahead of its think block.  A
    split may hand it over in deltas of its own, before [think_start] is
    seen: the streaming parser returns those as content. *)
Definition layout_lead (L : layout) : str :=
  match L with
  | Thought w _ _ _ _ => w
  | Unclosed w _ _ => w
  | Direct _ _ => []
  end.

(** How much of the first [n] positions of a text the split [ds] hands
    over in deltas of their own: the lengths of the deltas that end within
    these positions. *)
Fixpoint lead_length (n : nat) (ds : list str) : nat :=
  match ds with
  | [] => 0
  | d :: rest =>
      if length d <=? n
      then length d + lead_length (n - length d) rest
      else 0
  end.

(** The leading whitespace that the split hands over before the delta
    with [think_start]. *)
Definition streamed_lead (L : layout) (deltas : list (str * list Z)) : str :=
  firstn (lead_length (length (layout_lead L)) (map fst deltas))
         (layout_lead L).

(** The layout is read the way it is written: [w] and [g] are whitespace;
    the shown [think_start] is the first one and the shown [think_end] the
    first one; the part has no answer tag inside.  An output without
    thinking has no [think_start]; when it has no answer tags either, it
    has no [answer_start] (an [answer_end] may occur, and [g] may be any
    text). *)
Definition layout_ok (L : layout) : Prop :=
  match L with
  | Thought w pre R g p =>
      blank w /\ blank g
      /\ ~ substring think_start (w ++ pre)
      /\ ~ substring think_end (w ++ pre ++ think_start ++ R)
      /\ part_plain p /\ whole_part p
  | Unclosed w pre R =>
      blank w
      /\ ~ substring think_start (w ++ pre)
      /\ ~ substring think_end (w ++ pre ++ think_start ++ R)
  | Direct g (Bare C) =>
      ~ substring think_start (g ++ C) /\ ~ substring answer_start (g ++ C)
  | Direct g p =>
      blank g
      /\ ~ substring think_start (g ++ part_text p)
      /\ part_plain p /\ whole_part p
  end.

(** Position [b] cuts the layout where a split must not: inside [pre] or
    [think_start] (the text [pre] comes in the same delta as
    [think_start]; the whitespace [w] may come before, in deltas of its
    own), inside [think_end], or inside an answer tag. *)
Definition layout_cut (L : layout) (b : nat) : Prop :=
  match L with
  | Thought w pre R g p =>
      cuts (length w) (length pre + length think_start) b
      \/ cuts (length w + length pre + length think_start + length R)
              (length think_end) b
      \/ part_cut (length w + length pre + length think_start + length R
                   + length think_end + length g) p b
  | Unclosed w pre R =>
      cuts (length w) (length pre + length think_start) b
  | Direct g p => part_cut (length g) p b
  end.

(** No delta of the split ends at a position that cuts the layout. *)
Definition split_keeps_delimiters (L : layout)
    (deltas : list (str * list Z)) : Prop :=
  Forall (fun b => ~ layout_cut L b) (boundaries 0 (map fst deltas)).

(** ** Concrete instances for runs *)

(** A tokenizer whose ids are the code points themselves. *)
Definition codepoint_tokenizer : PreTrainedTokenizerBase :=
  {| decode := fun ids _ => map Z.to_N ids;
     encode := fun s _ => map Z.of_N s |}.

(** A parser in a given state, as an instance is after some calls. *)
Definition parser_in (st : state) (buf : str) (tc : bool) : parser :=
  {| model_tokenizer := codepoint_tokenizer; current_state := st;
     buffer := buf; thinking_complete := tc |}.

(** A call whose texts are given, with the code points as token ids. *)
Definition call_of (prev delta : str) : call :=
  {| previous_text := prev; current_text := prev ++ delta;
     delta_text := delta;
     previous_token_ids := map Z.of_N prev;
     current_token_ids := map Z.of_N (prev ++ delta);
     delta_token_ids := map Z.of_N delta |}.

(** Deltas given as texts, with the code points as token ids. *)
Definition deltas_of (ds : list str) : list (str * list Z) :=
  map (fun d => (d, map Z.of_N d)) ds.

(** Unfolding of one streaming call down to its tests on the texts. *)
Ltac unfold_streaming :=
  unfold step, extract_reasoning_content_streaming;
  cbn [set_buffer set_current_state set_thinking_complete
       current_state buffer model_tokenizer thinking_complete
       previous_text current_text delta_text].

(** * Facts about the string operations *)

Section StringFacts.

Implicit Types (p s t : str) (i j : nat).

Lemma startswith_app p t : startswith p (p ++ t) = true.
Proof.
  induction p as [|a p IH]; simpl; [reflexivity|].
  now rewrite N.eqb_refl, IH.
Qed.

Lemma startswith_inv p : forall s,
  startswith p s = true -> s = p ++ skipn (length p) s.
Proof.
  induction p as [|a p IH]; intros s H; simpl in *; [reflexivity|].
  destruct s as [|b s]; [discriminate|].
  apply andb_true_iff in H as [Hab Hps].
  apply N.eqb_eq in Hab; subst b.
  simpl. f_equal. now apply IH.
Qed.

Lemma startswith_iff p s :
  startswith p s = true <-> exists t, s = p ++ t.
Proof.
  split.
  - intros H. eexists. now apply startswith_inv.
  - intros [t ->]. apply startswith_app.
Qed.

Lemma startswith_length p s :
  startswith p s = true -> length p <= length s.
Proof.
  intros H. apply startswith_inv in H. rewrite H, length_app. lia.
Qed.

(** A prefix test only looks at the first [length p] characters. *)
Lemma startswith_app_l p : forall s t,
  length p <= length s -> startswith p (s ++ t) = startswith p s.
Proof.
  induction p as [|a p IH]; intros s t Hlen; simpl; [reflexivity|].
  destruct s as [|b s]; simpl in *; [lia|].
  rewrite IH by lia. reflexivity.
Qed.

(** When [p] starts inside [r] and runs over its end, the rest of [p] is a
    prefix of what follows [r]. *)
Lemma startswith_overrun : forall r p t,
  length r < length p ->
  startswith p (r ++ t) = true ->
  startswith (skipn (length r) p) t = true.
Proof.
  induction r as [|c r IH]; intros p t Hlen H; simpl in *; [assumption|].
  destruct p as [|a p]; simpl in *; [lia|].
  apply andb_true_iff in H as [_ H].
  apply IH; [lia | assumption].
Qed.

Lemma index_of_bound p : forall s i,
  index_of p s = Some i -> i <= length s.
Proof.
  induction s as [|c s IH]; intros i H; simpl in H.
  - destruct (startswith p []); inversion H; simpl; lia.
  - destruct (startswith p (c :: s)).
    + inversion H. lia.
    + destruct (index_of p s) as [k|] eqn:E; [|discriminate].
      inversion H. specialize (IH k eq_refl). simpl. lia.
Qed.

Lemma index_of_occurs p : forall s i,
  index_of p s = Some i -> startswith p (skipn i s) = true.
Proof.
  induction s as [|c s IH]; intros i H; simpl in H.
  - destruct (startswith p []) eqn:E; inversion H. exact E.
  - destruct (startswith p (c :: s)) eqn:E.
    + inversion H. exact E.
    + destruct (index_of p s) as [k|] eqn:Ek; [|discriminate].
      inversion H. simpl. now apply IH.
Qed.

Lemma index_of_least p : forall s i j,
  index_of p s = Some i -> j < i -> startswith p (skipn j s) = false.
Proof.
  induction s as [|c s IH]; intros i j H Hj; simpl in H.
  - destruct (startswith p []); inversion H; lia.
  - destruct (startswith p (c :: s)) eqn:E.
    + inversion H. lia.
    + destruct (index_of p s) as [k|] eqn:Ek; [|discriminate].
      inversion H; subst i.
      destruct j as [|j]; [exact E|].
      simpl. apply (IH k); [reflexivity | lia].
Qed.

Lemma index_of_none p : forall s j,
  index_of p s = None -> startswith p (skipn j s) = false.
Proof.
  induction s as [|c s IH]; intros j H; simpl in H.
  - destruct (startswith p []) eqn:E; [discriminate|].
    now destruct j.
  - destruct (startswith p (c :: s)) eqn:E; [discriminate|].
    destruct (index_of p s) eqn:Ek; [discriminate|].
    destruct j as [|j]; [exact E|]. simpl. now apply IH.
Qed.

(** The first occurrence, characterised. *)
Lemma index_of_first p : forall s i,
  i <= length s ->
  startswith p (skipn i s) = true ->
  (forall j, j < i -> startswith p (skipn j s) = false) ->
  index_of p s = Some i.
Proof.
  intros s i Hi Hocc Hleast.
  destruct (index_of p s) as [k|] eqn:E.
  - destruct (Nat.lt_trichotomy k i) as [Hlt|[->|Hgt]]; [|reflexivity|].
    + pose proof (Hleast k Hlt).
      pose proof (index_of_occurs _ _ _ E). congruence.
    + pose proof (index_of_least _ _ _ _ E Hgt). congruence.
  - pose proof (index_of_none _ _ i E). congruence.
Qed.

(** A string splits around the first occurrence of [p]. *)
Lemma index_of_split p s i :
  index_of p s = Some i ->
  s = firstn i s ++ p ++ skipn (i + length p) s.
Proof.
  intros H. pose proof (index_of_occurs _ _ _ H) as Hocc.
  apply startswith_inv in Hocc.
  rewrite skipn_skipn in Hocc.
  rewrite (Nat.add_comm i), <- Hocc. symmetry. apply firstn_skipn.
Qed.

Lemma index_of_end p s i :
  index_of p s = Some i -> i + length p <= length s.
Proof.
  intros H. pose proof (index_of_occurs _ _ _ H) as Hocc.
  apply startswith_length in Hocc. rewrite length_skipn in Hocc.
  pose proof (index_of_bound _ _ _ H).
  destruct p as [|a p]; simpl in *; lia.
Qed.

Lemma str_in_index p s :
  str_in p s = true <-> exists i, index_of p s = Some i.
Proof.
  unfold str_in. destruct (index_of p s) as [i|]; split; intros H.
  - now exists i.
  - reflexivity.
  - discriminate.
  - now destruct H.
Qed.

Lemma str_in_false_index p s :
  str_in p s = false <-> index_of p s = None.
Proof.
  unfold str_in. destruct (index_of p s); split; congruence.
Qed.

(** [p in s] holds exactly when [p] is a substring of [s]. *)
Lemma str_in_iff p s : str_in p s = true <-> substring p s.
Proof.
  split.
  - intros H. apply str_in_index in H as [i H].
    exists (firstn i s), (skipn (i + length p) s). now apply index_of_split.
  - intros (pre & post & ->).
    destruct (str_in p (pre ++ p ++ post)) eqn:E; [reflexivity|].
    apply str_in_false_index in E.
    pose proof (index_of_none _ _ (length pre) E) as H.
    rewrite skipn_app, skipn_all, Nat.sub_diag in H. simpl in H.
    now rewrite startswith_app in H.
Qed.

Lemma str_in_false_iff p s : str_in p s = false <-> ~ substring p s.
Proof.
  rewrite <- str_in_iff. destruct (str_in p s); split; congruence.
Qed.

Lemma find_index p s i : index_of p s = Some i -> find p s = Z.of_nat i.
Proof. unfold find. now intros ->. Qed.

Lemma find_none p s : str_in p s = false -> find p s = (-1)%Z.
Proof. intros H. apply str_in_false_index in H. unfold find. now rewrite H. Qed.

End StringFacts.

Section SliceFacts.

Implicit Types (p s t : str) (i j : nat).

Lemma clamp_nat n i : clamp n (Z.of_nat i) = Nat.min i n.
Proof.
  unfold clamp. destruct (Z.ltb_spec (Z.of_nat i) 0); [lia|].
  now rewrite Nat2Z.id.
Qed.

Lemma slice_nat s i j :
  i <= j -> j <= length s ->
  slice s (Z.of_nat i) (Z.of_nat j) = firstn (j - i) (skipn i s).
Proof.
  intros Hij Hj. unfold slice. rewrite !clamp_nat.
  now rewrite !Nat.min_l by lia.
Qed.

(** A slice whose lower bound is not below its upper bound is empty. *)
Lemma slice_empty s i j :
  j <= i -> slice s (Z.of_nat i) (Z.of_nat j) = [].
Proof.
  intros Hij. unfold slice. rewrite !clamp_nat.
  replace (Nat.min j (length s) - Nat.min i (length s)) with 0 by lia.
  reflexivity.
Qed.

Lemma slice_from_nat s i :
  slice_from s (Z.of_nat i) = skipn i s.
Proof.
  unfold slice_from. rewrite clamp_nat.
  destruct (Nat.le_gt_cases i (length s)).
  - now rewrite Nat.min_l.
  - rewrite Nat.min_r by lia. now rewrite !skipn_all2 by lia.
Qed.

Lemma slice_to_nat s i :
  slice_to s (Z.of_nat i) = firstn i s.
Proof.
  unfold slice_to. rewrite clamp_nat.
  destruct (Nat.le_gt_cases i (length s)).
  - now rewrite Nat.min_l.
  - rewrite Nat.min_r by lia. now rewrite !firstn_all2 by lia.
Qed.

Lemma len_add i p : (Z.of_nat i + len p)%Z = Z.of_nat (i + length p).
Proof. unfold len. lia. Qed.

(** The pieces of [pre ++ p ++ post]. *)
Lemma skipn_past pre p post :
  skipn (length pre + length p) (pre ++ p ++ post) = post.
Proof.
  rewrite Nat.add_comm, <- skipn_skipn, skipn_app, skipn_all, Nat.sub_diag.
  simpl. now rewrite skipn_app, skipn_all, Nat.sub_diag.
Qed.

Lemma firstn_pre pre t : firstn (length pre) (pre ++ t) = pre.
Proof.
  rewrite firstn_app, firstn_all, Nat.sub_diag. simpl. apply app_nil_r.
Qed.

Lemma skipn_pre pre t : skipn (length pre) (pre ++ t) = t.
Proof. now rewrite skipn_app, skipn_all, Nat.sub_diag. Qed.

End SliceFacts.

Section Occurrences.

Implicit Types (p s t : str) (i j : nat).

Lemma substring_app_l p s t : substring p s -> substring p (s ++ t).
Proof.
  intros (a & b & ->). exists a, (b ++ t). now rewrite <- !app_assoc.
Qed.

Lemma substring_app_r p s t : substring p t -> substring p (s ++ t).
Proof.
  intros (a & b & ->). exists (s ++ a), b. now rewrite <- !app_assoc.
Qed.

Lemma str_in_app_r p s t : str_in p t = true -> str_in p (s ++ t) = true.
Proof. rewrite !str_in_iff. apply substring_app_r. Qed.

Lemma str_in_app_l p s t : str_in p s = true -> str_in p (s ++ t) = true.
Proof. rewrite !str_in_iff. apply substring_app_l. Qed.

Lemma str_in_app_false p s t :
  str_in p (s ++ t) = false -> str_in p s = false /\ str_in p t = false.
Proof.
  intros H. split.
  - destruct (str_in p s) eqn:E; [|reflexivity].
    now rewrite (str_in_app_l _ _ t E) in H.
  - destruct (str_in p t) eqn:E; [|reflexivity].
    now rewrite (str_in_app_r _ s _ E) in H.
Qed.

Lemma border_free_spec p k :
  border_free p = true -> 0 < k < length p ->
  startswith (skipn k p) p = false.
Proof.
  unfold border_free. intros H Hk.
  rewrite forallb_forall in H. specialize (H k).
  rewrite in_seq in H. apply negb_true_iff, H. lia.
Qed.

(** An occurrence of a border-free [p] cannot start inside [pre] when [p]
    does not occur in [pre] and [pre] is followed by [p] itself. *)
Lemma no_early_occurrence p pre post j :
  border_free p = true ->
  str_in p pre = false ->
  j < length pre ->
  startswith p (skipn j (pre ++ p ++ post)) = false.
Proof.
  intros Hbf Hpre Hj.
  destruct (startswith p (skipn j (pre ++ p ++ post))) eqn:E; [|reflexivity].
  exfalso.
  rewrite skipn_app in E.
  replace (j - length pre) with 0 in E by lia. simpl in E.
  destruct (Nat.le_gt_cases (length p) (length (skipn j pre))) as [Hle|Hgt].
  - rewrite startswith_app_l in E by assumption.
    apply str_in_false_iff in Hpre. apply Hpre.
    apply startswith_inv in E.
    exists (firstn j pre), (skipn (length p) (skipn j pre)).
    now rewrite <- E, firstn_skipn.
  - pose proof (startswith_overrun _ _ _ Hgt E) as H.
    rewrite startswith_app_l in H by (rewrite length_skipn; lia).
    rewrite border_free_spec in H; [discriminate | assumption |].
    rewrite length_skipn in *. lia.
Qed.

(** The first occurrence of a border-free [p] in [pre ++ p ++ post] is
    right after [pre], when [p] does not occur in [pre]. *)
Lemma index_of_after p pre post :
  border_free p = true ->
  str_in p pre = false ->
  index_of p (pre ++ p ++ post) = Some (length pre).
Proof.
  intros Hbf Hpre. apply index_of_first.
  - rewrite length_app. lia.
  - rewrite skipn_pre. apply startswith_app.
  - intros j Hj. now apply no_early_occurrence.
Qed.

Lemma str_in_after p pre post : str_in p (pre ++ p ++ post) = true.
Proof. apply str_in_iff. now exists pre, post. Qed.

End Occurrences.

(** * Delimiters *)

Section Delimiters.

Lemma think_start_border_free : border_free think_start = true.
Proof. reflexivity. Qed.

Lemma think_end_border_free : border_free think_end = true.
Proof. reflexivity. Qed.

Lemma answer_start_border_free : border_free answer_start = true.
Proof. reflexivity. Qed.

Lemma answer_end_border_free : border_free answer_end = true.
Proof. reflexivity. Qed.

Lemma length_think_start : length think_start = 7.
Proof. reflexivity. Qed.

Lemma length_think_end : length think_end = 8.
Proof. reflexivity. Qed.

Lemma length_answer_start : length answer_start = 8.
Proof. reflexivity. Qed.

Lemma length_answer_end : length answer_end = 9.
Proof. reflexivity. Qed.

End Delimiters.

(** * Token-level helpers *)

Section TokenHelpers.

(** [text.split(think_end, 1)] around the first occurrence. *)
Lemma split_once sep s i :
  index_of sep s = Some i ->
  split sep s 1 = [firstn i s; skipn (i + length sep) s].
Proof. intros H. simpl. now rewrite H. Qed.

(** C8. [is_reasoning_end] returns true exactly when [think_end] is a
    substring of the text decoded from the ids with special tokens skipped;
    the answer is the same whatever the streaming state, buffer and
    thinking flag of the instance are. *)
Theorem is_reasoning_end_iff_substring
    (tokenizer : PreTrainedTokenizerBase) (st : state) (buf : str)
    (tc : bool) (input_ids : list Z) :
  is_reasoning_end
    {| model_tokenizer := tokenizer; current_state := st;
       buffer := buf; thinking_complete := tc |} input_ids = true
  <-> substring think_end (decode tokenizer input_ids true).
Proof. unfold is_reasoning_end. simpl. apply str_in_iff. Qed.



End TokenHelpers.

(** * Full-text extraction *)

Section FullText.

Lemma none_if_empty_nonempty x : none_if_empty x <> Some [].
Proof. destruct x as [[|c s]|]; simpl; discriminate. Qed.

(** C7. Neither component of the result of [extract_reasoning_content] is
    the empty string: a reasoning or answer value that is empty after
    trimming comes back as [None], any other value unchanged. *)
Theorem extract_reasoning_content_never_empty
    {ChatCompletionRequest : Type} (model_output : str)
    (request : ChatCompletionRequest) :
  let result := extract_reasoning_content model_output request in
  fst result <> Some [] /\ snd result <> Some []
  /\ fst result = none_if_empty (fst (classify model_output))
  /\ snd result = none_if_empty (snd (classify model_output)).
Proof.
  unfold extract_reasoning_content.
  destruct (classify model_output) as [r a]. simpl.
  repeat split; apply none_if_empty_nonempty.
Qed.

End FullText.

(** * The streaming state machine *)

Section Streaming.

Lemma step_rank self c :
  rank (current_state self) <= rank (current_state (snd (step self c))).
Proof.
  unfold step, extract_reasoning_content_streaming.
  destruct self as [tok st buf tc]; simpl.
  destruct st; simpl;
    repeat match goal with
           | |- context [if ?b then _ else _] => destruct b; simpl
           | |- context [match ?l with [] => _ | _ :: _ => _ end] =>
               destruct l; simpl
           end; lia.
Qed.

Lemma trace_rank self cs :
  Forall (fun q => rank (current_state self) <= rank (current_state q))
         (trace self cs).
Proof.
  revert self. induction cs as [|c cs IH]; intros self; simpl.
  - constructor.
  - pose proof (step_rank self c) as H. constructor; [exact H|].
    eapply Forall_impl; [|apply IH]. simpl. intros q Hq. lia.
Qed.

Lemma trace_sorted self cs :
  StronglySorted (fun a b => rank a <= rank b)
                 (map current_state (trace self cs)).
Proof.
  revert self. induction cs as [|c cs IH]; intros self; simpl.
  - constructor.
  - constructor; [apply IH|].
    rewrite Forall_map. apply trace_rank.
Qed.

(** C6. Over any sequence of calls on one instance the state only moves
    forward in the order [initial < thinking < content]: the states the
    instance goes through, starting with the one it is in, never decrease;
    and an instance in state [content] stays there. *)
Theorem state_forward_only (self : parser) (cs : list call) :
  StronglySorted (fun a b => rank a <= rank b)
                 (map current_state (self :: trace self cs))
  /\ (current_state self = Content ->
      Forall (fun q => current_state q = Content) (trace self cs)).
Proof.
  split.
  - simpl. constructor; [apply trace_sorted|].
    rewrite Forall_map. apply trace_rank.
  - intros Hc. pose proof (trace_rank self cs) as H.
    eapply Forall_impl; [|exact H]. simpl. intros q Hq.
    rewrite Hc in Hq. destruct (current_state q); simpl in Hq; try lia.
    reflexivity.
Qed.

Lemma state_forward_only_witness :
  Forall (fun q => current_state q = Content)
         (trace (parser_in Content (lit "<think>a</think>") true)
                [call_of (lit "<think>a</think>") (lit "<think>b");
                 call_of (lit "<think>a</think><think>b") (lit "</think>")]).
Proof.
  apply (proj2 (state_forward_only
                  (parser_in Content (lit "<think>a</think>") true) _)).
  reflexivity.
Defined.

End Streaming.

Section SliceOfConcatenation.

Implicit Types (a b c s : str).

Lemma slice_mid a b c :
  slice (a ++ b ++ c) (Z.of_nat (length a)) (Z.of_nat (length a + length b))
  = b.
Proof.
  rewrite slice_nat by (rewrite ?length_app; lia).
  rewrite skipn_pre.
  replace (length a + length b - length a) with (length b) by lia.
  apply firstn_pre.
Qed.

Lemma slice_from_past a c : slice_from (a ++ c) (Z.of_nat (length a)) = c.
Proof. rewrite slice_from_nat. apply skipn_pre. Qed.

Lemma slice_to_pre a c : slice_to (a ++ c) (Z.of_nat (length a)) = a.
Proof. rewrite slice_to_nat. apply firstn_pre. Qed.

End SliceOfConcatenation.

Section StreamingCalls.

Implicit Types (self : parser) (c : call).

(** The call on a delta that holds a whole think block. *)
Lemma step_whole_block self c (pre r post : str) :
  current_state self = Initial ->
  current_text c = previous_text c ++ delta_text c ->
  delta_text c = pre ++ think_start ++ r ++ think_end ++ post ->
  str_in think_start pre = false ->
  str_in think_end (pre ++ think_start ++ r) = false ->
  step self c
  = (Some {| reasoning_content := truthy r;
             content := truthy (strip_answer_tags post) |},
     {| model_tokenizer := model_tokenizer self;
        current_state := Content;
        buffer := current_text c;
        thinking_complete := true |}).
Proof.
  intros Hst Hcur Hdelta Hpre Hmid.
  assert (Hi : index_of think_start (delta_text c) = Some (length pre)).
  { rewrite Hdelta. now apply index_of_after. }
  assert (Hassoc : delta_text c
                   = (pre ++ think_start ++ r) ++ think_end ++ post).
  { rewrite Hdelta. now rewrite <- !app_assoc. }
  assert (Hj : index_of think_end (delta_text c)
               = Some (length (pre ++ think_start ++ r))).
  { rewrite Hassoc. now apply index_of_after. }
  assert (Hin : str_in think_start (current_text c) = true).
  { rewrite Hcur. apply str_in_app_r, str_in_index. eauto. }
  assert (Hend : str_in think_end (delta_text c) = true).
  { apply str_in_index. eauto. }
  assert (Hr : slice (delta_text c)
                 (Z.of_nat (length pre) + len think_start)
                 (Z.of_nat (length (pre ++ think_start ++ r))) = r).
  { rewrite len_add, <- length_app.
    replace (length (pre ++ think_start ++ r))
      with (length (pre ++ think_start) + length r)
      by (rewrite !length_app; lia).
    replace (delta_text c)
      with ((pre ++ think_start) ++ r ++ think_end ++ post)
      by (rewrite Hdelta; now rewrite <- !app_assoc).
    apply slice_mid. }
  assert (Hpost : slice_from (delta_text c)
                    (Z.of_nat (length (pre ++ think_start ++ r))
                     + len think_end) = post).
  { rewrite len_add, <- length_app.
    replace (delta_text c)
      with (((pre ++ think_start ++ r) ++ think_end) ++ post)
      by (rewrite Hdelta; now rewrite <- !app_assoc).
    apply slice_from_past. }
  unfold_streaming. rewrite Hst, Hin, Hend.
  rewrite (find_index _ _ _ Hi), (find_index _ _ _ Hj), Hr, Hpost.
  destruct (Z.ltb_spec (Z.of_nat (length pre))
              (Z.of_nat (length (pre ++ think_start ++ r)))) as [_|Hge].
  - reflexivity.
  - rewrite !length_app, length_think_start in Hge. lia.
Qed.

(** The call on a delta that closes the think block. *)
Lemma step_end_split self c (pre post : str) :
  current_state self = Thinking ->
  delta_text c = pre ++ think_end ++ post ->
  str_in think_end pre = false ->
  step self c
  = (Some {| reasoning_content := truthy pre;
             content := truthy (strip_answer_tags post) |},
     {| model_tokenizer := model_tokenizer self;
        current_state := Content;
        buffer := current_text c;
        thinking_complete := true |}).
Proof.
  intros Hst Hdelta Hpre.
  assert (Hj : index_of think_end (delta_text c) = Some (length pre)).
  { rewrite Hdelta. now apply index_of_after. }
  assert (Hend : str_in think_end (delta_text c) = true).
  { apply str_in_index. eauto. }
  unfold_streaming.
  rewrite Hst, Hend, (find_index _ _ _ Hj).
  rewrite len_add, <- length_app.
  replace (delta_text c) with ((pre ++ think_end) ++ post) at 2
    by (rewrite Hdelta; now rewrite <- app_assoc).
  rewrite slice_from_past, Hdelta, slice_to_pre. reflexivity.
Qed.


(** C5. In state [initial] (of an instance whose thinking flag is still
    false, as it is until [think_end] is seen) the call takes the thinking
    branch exactly when [think_start] is a substring of the current text,
    whatever the delta holds: afterwards the state is [thinking], or
    [content] with the thinking flag set.  On such a call, when the delta
    contains neither [think_start] nor [think_end], the whole delta is
    returned as the reasoning fragment; the same holds in state [thinking]
    for a delta without [think_end]. *)
Theorem thinking_entered_on_current_text
    (tokenizer : PreTrainedTokenizerBase) (buf : str) c :
  let self := {| model_tokenizer := tokenizer; current_state := Initial;
                 buffer := buf; thinking_complete := false |} in
  (substring think_start (current_text c)
   <-> (current_state (snd (step self c)) = Thinking
        \/ (current_state (snd (step self c)) = Content
            /\ thinking_complete (snd (step self c)) = true)))
  /\ (substring think_start (current_text c) ->
      ~ substring think_start (delta_text c) ->
      ~ substring think_end (delta_text c) ->
      step self c
      = (Some {| reasoning_content := Some (delta_text c);
                 content := None |},
         {| model_tokenizer := tokenizer; current_state := Thinking;
            buffer := current_text c; thinking_complete := false |}))
  /\ (forall thinker,
        current_state thinker = Thinking ->
        ~ substring think_end (delta_text c) ->
        fst (step thinker c)
        = Some {| reasoning_content := Some (delta_text c);
                  content := None |}).
Proof.
  intros self. unfold self. repeat split.
  - intros H. apply str_in_iff in H. unfold_streaming. rewrite H.
    destruct (str_in think_end (delta_text c)).
    + destruct (find think_start (delta_text c)
                <? find think_end (delta_text c))%Z;
        cbn [snd current_state thinking_complete]; auto.
    + destruct (str_in think_start (delta_text c));
        cbn [snd current_state]; auto.
  - unfold_streaming. rewrite <- str_in_iff.
    destruct (str_in think_start (current_text c)); [reflexivity|].
    destruct (str_in answer_start (delta_text c)).
    + cbn [snd current_state thinking_complete].
      intros [H|[_ H]]; discriminate.
    + destruct (delta_text c); cbn [snd current_state thinking_complete];
        intros [H|[H _]]; discriminate.
  - intros Hcur Hs He.
    apply str_in_iff in Hcur. apply str_in_false_iff in Hs, He.
    unfold_streaming. now rewrite Hcur, He, Hs.
  - intros thinker Hst He. apply str_in_false_iff in He.
    unfold_streaming. now rewrite Hst, He.
Qed.

End StreamingCalls.

(** The messages of a call in state [thinking] or [content], and the state
    it leaves, depend on the delta alone. *)
Lemma step_delta_only (a b : parser) (c c' : call) :
  current_state a = current_state b ->
  current_state a <> Initial ->
  delta_text c = delta_text c' ->
  fst (step a c) = fst (step b c')
  /\ current_state (snd (step a c)) = current_state (snd (step b c'))
  /\ current_state (snd (step a c)) <> Initial.
Proof.
  intros Hab Ha Hd.
  destruct a as [ta sa ba ca], b as [tb sb bb cb].
  cbn [current_state] in Hab, Ha. subst sb.
  unfold_streaming. rewrite <- Hd.
  destruct sa; [congruence| |].
  - destruct (str_in think_end (delta_text c));
      cbn [fst snd current_state]; repeat split; discriminate.
  - destruct (strip_answer_tags (delta_text c));
      cbn [fst snd current_state]; repeat split; discriminate.
Qed.

Lemma run_delta_only (cs cs' : list call) : forall a b : parser,
  current_state a = current_state b ->
  current_state a <> Initial ->
  map delta_text cs = map delta_text cs' ->
  fst (run a cs) = fst (run b cs').
Proof.
  revert cs'. induction cs as [|c cs IH]; intros [|c' cs'] a b Hab Ha Hd;
    try discriminate; [reflexivity|].
  simpl in Hd. injection Hd as Hd Hds.
  destruct (step_delta_only a b c c' Hab Ha Hd) as (Hm & Hs & Hn).
  simpl.
  destruct (step a c) as [m a'], (step b c') as [m' b'].
  simpl in Hm, Hs, Hn. subst m'.
  specialize (IH cs' a' b' Hs Hn Hds).
  destruct (run a' cs) as [ms a''], (run b' cs') as [ms' b''].
  simpl in IH. simpl. now subst.
Qed.

Section DroppedDelta.

Implicit Types (self : parser) (c : call).

(** C10. In state [initial], when the current text contains [think_start]
    and the first [think_end] of the delta is at or before the first
    [think_start] of the delta, the call sets the state to [thinking] and
    returns no message.  No later call returns the text of that delta: what
    later calls return is what any instance in state [thinking] returns on
    the later deltas alone. *)
Theorem initial_end_before_start_dropped self c (i j : nat) :
  current_state self = Initial ->
  substring think_start (current_text c) ->
  index_of think_start (delta_text c) = Some i ->
  index_of think_end (delta_text c) = Some j ->
  j <= i ->
  step self c
  = (None,
     {| model_tokenizer := model_tokenizer self;
        current_state := Thinking;
        buffer := current_text c;
        thinking_complete := thinking_complete self |})
  /\ forall (fresh : parser) (later later' : list call),
       current_state fresh = Thinking ->
       map delta_text later = map delta_text later' ->
       fst (run (snd (step self c)) later) = fst (run fresh later').
Proof.
  intros Hst Hcur Hi Hj Hji.
  apply str_in_iff in Hcur.
  assert (Hend : str_in think_end (delta_text c) = true)
    by (apply str_in_index; eauto).
  assert (Hstep : step self c
                  = (None,
                     {| model_tokenizer := model_tokenizer self;
                        current_state := Thinking;
                        buffer := current_text c;
                        thinking_complete := thinking_complete self |})).
  { unfold_streaming. rewrite Hst, Hcur, Hend.
    rewrite (find_index _ _ _ Hi), (find_index _ _ _ Hj).
    destruct (Z.ltb_spec (Z.of_nat i) (Z.of_nat j)); [lia|reflexivity]. }
  split; [exact Hstep|].
  intros fresh later later' Hfresh Hd. rewrite Hstep. cbn [snd].
  apply run_delta_only; cbn [current_state]; congruence.
Qed.

Lemma initial_end_before_start_dropped_witness :
  step (init codepoint_tokenizer) (call_of [] (lit "</think><think>"))
  = (None, parser_in Thinking (lit "</think><think>") false)
  /\ fst (run (snd (step (init codepoint_tokenizer)
                         (call_of [] (lit "</think><think>"))))
              [call_of (lit "</think><think>") (lit "abc")])
     = fst (run (parser_in Thinking (lit "<think>") false)
                [call_of (lit "<think>") (lit "abc")]).
Proof.
  destruct (initial_end_before_start_dropped
              (init codepoint_tokenizer)
              (call_of [] (lit "</think><think>")) 8 0) as [Hstep Hlater].
  - reflexivity.
  - apply str_in_iff. reflexivity.
  - reflexivity.
  - reflexivity.
  - apply Nat.le_0_l.
  - split; [exact Hstep|].
    apply Hlater; reflexivity.
Defined.

End DroppedDelta.

Section Witnesses.



(** The delimiter arrives split as [<th] then [ink>]: the second call
    finds it in the current text and returns the delta as reasoning; a
    later delta without [think_end] is returned as reasoning too. *)
Lemma thinking_entered_on_current_text_witness :
  step (parser_in Initial (lit "<th") false)
       (call_of (lit "<th") (lit "ink>"))
  = (Some {| reasoning_content := Some (lit "ink>"); content := None |},
     parser_in Thinking (lit "<think>") false)
  /\ fst (step (parser_in Thinking (lit "<think>") false)
               (call_of (lit "<think>") (lit "abc")))
     = Some {| reasoning_content := Some (lit "abc"); content := None |}.
Proof.
  split.
  - apply (proj1 (proj2 (thinking_entered_on_current_text
                    codepoint_tokenizer (lit "<th")
                    (call_of (lit "<th") (lit "ink>"))))).
    + apply str_in_iff. reflexivity.
    + apply str_in_false_iff. reflexivity.
    + apply str_in_false_iff. reflexivity.
  - apply (proj2 (proj2 (thinking_entered_on_current_text
                    codepoint_tokenizer (lit "<th")
                    (call_of (lit "<think>") (lit "abc"))))
             (parser_in Thinking (lit "<think>") false)).
    + reflexivity.
    + apply str_in_false_iff. reflexivity.
Defined.

End Witnesses.

(** * Trimming *)

Section Trimming.

Implicit Types (p s t : str).

Lemma lstrip_suffix s : exists a, s = a ++ lstrip s.
Proof.
  induction s as [|c s [a IH]]; simpl.
  - now exists [].
  - destruct (isspace c).
    + exists (c :: a). simpl. now f_equal.
    + now exists [].
Qed.

Lemma rstrip_prefix s : exists b, s = rstrip s ++ b.
Proof.
  unfold rstrip. destruct (lstrip_suffix (rev s)) as [a H].
  exists (rev a).
  rewrite <- rev_app_distr, <- H. symmetry. apply rev_involutive.
Qed.

Lemma strip_substring s : exists a b, s = a ++ strip s ++ b.
Proof.
  unfold strip. destruct (lstrip_suffix s) as [a Ha].
  destruct (rstrip_prefix (lstrip s)) as [b Hb].
  exists a, b. now rewrite <- Hb.
Qed.

(** Trimming does not bring in a delimiter. *)
Lemma str_in_strip_false p s :
  str_in p s = false -> str_in p (strip s) = false.
Proof.
  intros H. destruct (strip_substring s) as (a & b & E).
  rewrite E in H.
  apply str_in_app_false in H as [_ H].
  now apply str_in_app_false in H as [H _].
Qed.

Lemma lstrip_nonspace c s : isspace c = false -> lstrip (c :: s) = c :: s.
Proof. intros H. simpl. now rewrite H. Qed.

Lemma rstrip_nonspace c s :
  isspace c = false -> rstrip (s ++ [c]) = s ++ [c].
Proof.
  intros H. unfold rstrip. rewrite rev_app_distr. simpl.
  rewrite H. simpl. now rewrite rev_involutive.
Qed.

(** A text that begins and ends with characters that are not whitespace
    is its own trimmed form. *)
Lemma strip_nonspace_ends c d s :
  isspace c = false -> isspace d = false ->
  strip (c :: s ++ [d]) = c :: s ++ [d].
Proof.
  intros Hc Hd. unfold strip. rewrite lstrip_nonspace by assumption.
  now apply (rstrip_nonspace d (c :: s)).
Qed.

End Trimming.

(** * Occurrences across a concatenation *)

Section Across.

Implicit Types (p q s t : str) (i j k : nat).

(** A prefix test against [a ++ t] that succeeds makes [a] and [p]
    comparable: one is a prefix of the other. *)
Lemma startswith_comparable p : forall a t,
  startswith p (a ++ t) = true ->
  startswith a p = true \/ startswith p a = true.
Proof.
  induction p as [|x p IH]; intros a t H.
  - right. reflexivity.
  - destruct a as [|y a]; [left; reflexivity|].
    simpl in H. apply andb_true_iff in H as [Hxy H].
    apply N.eqb_eq in Hxy. subst y.
    destruct (IH a t H) as [H'|H']; [left|right];
      simpl; now rewrite N.eqb_refl.
Qed.

Lemma cannot_begin_in_spec p q t k :
  cannot_begin_in p q = true -> k < length q ->
  startswith p (skipn k (q ++ t)) = false.
Proof.
  unfold cannot_begin_in. intros H Hk.
  rewrite forallb_forall in H. specialize (H k).
  rewrite in_seq in H.
  assert (Hk' : 0 <= k < 0 + length q) by lia.
  apply H in Hk'. apply andb_true_iff in Hk' as [H1 H2].
  apply negb_true_iff in H1, H2.
  destruct (startswith p (skipn k (q ++ t))) eqn:E; [|reflexivity].
  rewrite skipn_app in E. replace (k - length q) with 0 in E by lia.
  simpl in E.
  destruct (startswith_comparable _ _ _ E); congruence.
Qed.

(** The first occurrence of [p] in [q ++ t] is the one in [t], when [p]
    cannot begin inside [q]. *)
Lemma index_of_across p q t :
  cannot_begin_in p q = true ->
  index_of p (q ++ t) = option_map (Nat.add (length q)) (index_of p t).
Proof.
  intros H. destruct (index_of p t) as [i|] eqn:E; simpl.
  - apply index_of_first.
    + rewrite length_app. pose proof (index_of_bound _ _ _ E). lia.
    + rewrite (Nat.add_comm (length q)), <- skipn_skipn, skipn_pre.
      now apply index_of_occurs.
    + intros j Hj. destruct (Nat.lt_ge_cases j (length q)) as [Hlt|Hge].
      * now apply cannot_begin_in_spec.
      * replace j with ((j - length q) + length q) by lia.
        rewrite <- skipn_skipn, skipn_pre.
        apply (index_of_least _ _ i); [assumption | lia].
  - destruct (index_of p (q ++ t)) as [j|] eqn:Ej; [|reflexivity].
    exfalso. pose proof (index_of_occurs _ _ _ Ej) as Hocc.
    destruct (Nat.lt_ge_cases j (length q)) as [Hlt|Hge].
    + now rewrite cannot_begin_in_spec in Hocc.
    + replace j with ((j - length q) + length q) in Hocc by lia.
      rewrite <- skipn_skipn, skipn_pre in Hocc.
      now rewrite (index_of_none _ _ _ E) in Hocc.
Qed.

Lemma str_in_across p q t :
  cannot_begin_in p q = true ->
  str_in p (q ++ t) = str_in p t.
Proof.
  intros H. unfold str_in. rewrite index_of_across by assumption.
  now destruct (index_of p t).
Qed.

Lemma index_of_head p t : index_of p (p ++ t) = Some 0.
Proof.
  apply index_of_first; [lia | apply startswith_app | intros j Hj; lia].
Qed.

End Across.

(** * The think block of a full text *)

Section ThinkBlock.

Implicit Types (a b s t R A : str) (i j : nat).

Lemma slice_firstn_skipn s i j :
  j <= length s ->
  slice s (Z.of_nat i) (Z.of_nat j) = firstn (j - i) (skipn i s).
Proof.
  intros Hj. destruct (Nat.le_gt_cases i j) as [Hij|Hij].
  - now apply slice_nat.
  - rewrite slice_empty by lia.
    replace (j - i) with 0 by lia. reflexivity.
Qed.

(** The slice the source takes between two [find] results is the text
    between the first occurrences. *)
Lemma slice_between_first a b s :
  str_in a s = true -> str_in b s = true ->
  slice s (find a s + len a) (find b s) = between_first a b s.
Proof.
  intros Ha Hb. apply str_in_index in Ha as [i Hi], Hb as [j Hj].
  unfold between_first. rewrite Hi, Hj.
  rewrite (find_index _ _ _ Hi), (find_index _ _ _ Hj), len_add.
  apply slice_firstn_skipn. now apply index_of_bound in Hj.
Qed.

Lemma slice_after_first a s :
  str_in a s = true ->
  slice_from s (find a s + len a) = after_first a s.
Proof.
  intros Ha. apply str_in_index in Ha as [i Hi].
  unfold after_first. rewrite Hi, (find_index _ _ _ Hi), len_add.
  apply slice_from_nat.
Qed.

(** In [pre ++ a ++ m ++ b ++ post], with the shown occurrences of [a] and
    [b] the first ones, the text between them is [m] and the text after
    [b] is [post]. *)
Lemma between_first_shown a b pre m post :
  index_of a (pre ++ a ++ m ++ b ++ post) = Some (length pre) ->
  index_of b (pre ++ a ++ m ++ b ++ post)
  = Some (length (pre ++ a ++ m)) ->
  between_first a b (pre ++ a ++ m ++ b ++ post) = m
  /\ after_first b (pre ++ a ++ m ++ b ++ post) = post.
Proof.
  intros Ha Hb. unfold between_first, after_first. rewrite Ha, Hb. split.
  - rewrite skipn_past.
    replace (length (pre ++ a ++ m) - (length pre + length a))
      with (length m) by (rewrite !length_app; lia).
    apply firstn_pre.
  - replace (pre ++ a ++ m ++ b ++ post)
      with ((pre ++ a ++ m) ++ b ++ post) by now rewrite <- !app_assoc.
    apply skipn_past.
Qed.

Lemma strip_answer_block A :
  strip (answer_start ++ A ++ answer_end) = answer_start ++ A ++ answer_end.
Proof.
  replace (answer_start ++ A ++ answer_end)
    with (60%N :: (skipn 1 answer_start ++ A ++ removelast answer_end)
                  ++ [62%N])
    by (rewrite <- !app_assoc; reflexivity).
  now apply strip_nonspace_ends.
Qed.

(** The spans of [<think>R</think><answer>A</answer>], when [R] has no
    [think_end] and [A] no [answer_end]. *)
Lemma spec_spans_of_think_answer_text R A :
  str_in think_end R = false ->
  str_in answer_end A = false ->
  spec_reasoning (think_answer_text R A) = strip R
  /\ spec_answer (strip (after_first think_end (think_answer_text R A)))
     = strip A.
Proof.
  intros HR HA. unfold spec_reasoning, think_answer_text.
  set (rest := answer_start ++ A ++ answer_end).
  assert (Hs : index_of think_start
                 ([] ++ think_start ++ R ++ think_end ++ rest)
               = Some (length (@nil char)))
    by exact (index_of_head think_start (R ++ think_end ++ rest)).
  assert (He : index_of think_end
                 ([] ++ think_start ++ R ++ think_end ++ rest)
               = Some (length ([] ++ think_start ++ R))).
  { change ([] ++ think_start ++ R ++ think_end ++ rest)
      with (think_start ++ R ++ think_end ++ rest).
    replace (think_start ++ R ++ think_end ++ rest)
      with ((think_start ++ R) ++ think_end ++ rest)
      by now rewrite <- !app_assoc.
    apply index_of_after; [reflexivity|].
    change ([] ++ think_start ++ R) with (think_start ++ R).
    rewrite (str_in_across think_end think_start R) by reflexivity.
    exact HR. }
  destruct (between_first_shown _ _ _ _ _ Hs He) as [Hb Ha].
  cbn [app] in Hb, Ha. rewrite Hb, Ha. split; [reflexivity|].
  unfold rest. rewrite strip_answer_block. unfold spec_answer.
  assert (Hs' : index_of answer_start
                  ([] ++ answer_start ++ A ++ answer_end ++ [])
                = Some (length (@nil char)))
    by exact (index_of_head answer_start (A ++ answer_end ++ [])).
  assert (He' : index_of answer_end
                  ([] ++ answer_start ++ A ++ answer_end ++ [])
                = Some (length ([] ++ answer_start ++ A))).
  { change ([] ++ answer_start ++ A ++ answer_end ++ [])
      with (answer_start ++ A ++ answer_end ++ []).
    replace (answer_start ++ A ++ answer_end ++ [])
      with ((answer_start ++ A) ++ answer_end ++ [])
      by now rewrite <- !app_assoc.
    apply index_of_after; [reflexivity|].
    change ([] ++ answer_start ++ A) with (answer_start ++ A).
    rewrite (str_in_across answer_end answer_start A) by reflexivity.
    exact HA. }
  destruct (between_first_shown _ _ _ _ _ Hs' He') as [Hb' _].
  cbn [app] in Hs', He', Hb'. rewrite app_nil_r in Hs', He', Hb'.
  assert (H1 : str_in answer_start (answer_start ++ A ++ answer_end) = true)
    by (apply str_in_index; eauto).
  assert (H2 : str_in answer_end (answer_start ++ A ++ answer_end) = true)
    by (apply str_in_index; eauto).
  now rewrite H1, H2, Hb'.
Qed.

(** The result for a text that has both think delimiters, through the
    spans above. *)
Lemma extract_think_block {ChatCompletionRequest : Type}
    (model_output : str) (request : ChatCompletionRequest) :
  str_in think_start model_output = true ->
  str_in think_end model_output = true ->
  extract_reasoning_content model_output request
  = (absent_if_empty (spec_reasoning model_output),
     absent_if_empty
       (spec_answer (strip (after_first think_end model_output)))).
Proof.
  intros Hs He.
  unfold extract_reasoning_content, classify. rewrite Hs, He.
  cbn [andb].
  rewrite (slice_between_first _ _ _ Hs He), (slice_after_first _ _ He).
  set (remaining := strip (after_first think_end model_output)).
  unfold spec_answer, spec_reasoning, absent_if_empty.
  destruct (str_in answer_start remaining) eqn:Ha;
    destruct (str_in answer_end remaining) eqn:Hb; cbn [andb].
  - now rewrite (slice_between_first _ _ _ Ha Hb).
  - now rewrite (slice_after_first _ _ Ha).
  - reflexivity.
  - reflexivity.
Qed.

(** The amended C2. For a text in which both think delimiters occur,
    [extract_reasoning_content] returns as reasoning the trimmed text
    strictly between the first [think_start] and the first [think_end], and
    as answer the span of the trimmed remainder after the first
    [think_end] (between the first answer tags if both occur in it, after
    the first [answer_start] if only it occurs, the remainder otherwise),
    each absent when empty; for [<think>R</think><answer>A</answer>] with
    no [think_end] in [R] and no [answer_end] in [A] these are the trimmed
    [R] and the trimmed [A]. *)
Theorem think_block_extraction {ChatCompletionRequest : Type}
    (model_output : str) (request : ChatCompletionRequest) :
  substring think_start model_output ->
  substring think_end model_output ->
  extract_reasoning_content model_output request
  = (absent_if_empty (spec_reasoning model_output),
     absent_if_empty
       (spec_answer (strip (after_first think_end model_output))))
  /\ forall R A,
       model_output = think_answer_text R A ->
       ~ substring think_end R ->
       ~ substring answer_end A ->
       extract_reasoning_content model_output request
       = (absent_if_empty (strip R), absent_if_empty (strip A)).
Proof.
  intros Hs He. apply str_in_iff in Hs, He.
  pose proof (extract_think_block model_output request Hs He) as Hgen.
  split; [exact Hgen|].
  intros R A Htext HR HA. apply str_in_false_iff in HR, HA.
  rewrite Hgen, Htext.
  destruct (spec_spans_of_think_answer_text R A HR HA) as [-> ->].
  reflexivity.
Qed.

End ThinkBlock.

Section ThinkBlockRuns.

Lemma think_block_extraction_witness :
  extract_reasoning_content
    (think_answer_text (lit " why ") (lit " yes ")) tt
  = (Some (lit "why"), Some (lit "yes")).
Proof.
  refine (proj2 (think_block_extraction
                   (think_answer_text (lit " why ") (lit " yes ")) tt _ _)
            (lit " why ") (lit " yes ") _ _ _).
  - apply str_in_iff. reflexivity.
  - apply str_in_iff. reflexivity.
  - reflexivity.
  - apply str_in_false_iff. reflexivity.
  - apply str_in_false_iff. reflexivity.
Defined.

(** The claim C2 as stated fails.  On [<think></think><answer>A</answer>]
    the trimmed text between the think delimiters is the empty string, and
    the reasoning returned is [None], not that string; and on
    [<think>a</think>b</think><answer>A</answer>], a text of the shape
    [<think>R</think><answer>A</answer>] with [R = a</think>b], the
    reasoning returned is [a], not the trimmed [R]. *)
Lemma think_block_as_stated_fails :
  let text := think_answer_text [] (lit "A") in
  (extract_reasoning_content text tt = (None, Some (lit "A"))
   /\ spec_reasoning text = []
   /\ extract_reasoning_content text tt
      <> (Some (spec_reasoning text),
          Some (spec_answer (strip (after_first think_end text)))))
  /\ (extract_reasoning_content
        (think_answer_text (lit "a</think>b") (lit "A")) tt
      = (Some (lit "a"), Some (lit "A"))
      /\ extract_reasoning_content
           (think_answer_text (lit "a</think>b") (lit "A")) tt
         <> (Some (strip (lit "a</think>b")), Some (strip (lit "A")))).
Proof.
  repeat split; try reflexivity; intros H; vm_compute in H; discriminate H.
Qed.

End ThinkBlockRuns.

(** * Streaming against the full text *)

Section StreamingSteps.

Implicit Types (self : parser) (c : call) (d s t : str).

Lemma replace_go_absent a p new : forall s,
  index_of (a :: p) s = None -> replace_go (a :: p) new s 0 = s.
Proof.
  induction s as [|c s IH]; intros H; [reflexivity|].
  cbn [index_of] in H. cbn [replace_go].
  destruct (startswith (a :: p) (c :: s)); [discriminate|].
  destruct (index_of (a :: p) s); [discriminate|].
  now rewrite IH.
Qed.

(** Replacing a string that does not occur changes nothing. *)
Lemma replace_absent p new s :
  p <> [] -> str_in p s = false -> replace p new s = s.
Proof.
  intros Hp H. apply str_in_false_index in H.
  destruct p as [|a p]; [congruence|].
  unfold replace. now apply replace_go_absent.
Qed.

Lemma replace_go_skip old new : forall x b,
  replace_go old new (x ++ b) (length x) = replace_go old new b 0.
Proof.
  induction x as [|c x IH]; intros b; [reflexivity|].
  cbn [app length replace_go]. apply IH.
Qed.

(** What [replace] does at the first occurrence of a border-free [p]:
    the text before it is kept, the occurrence is replaced, and the
    replacement goes on after it. *)
Lemma replace_occurrence p new a b :
  border_free p = true -> p <> [] -> str_in p a = false ->
  replace p new (a ++ p ++ b) = a ++ new ++ replace p new b.
Proof.
  intros Hbf Hp Ha. destruct p as [|x p]; [congruence|].
  unfold replace. induction a as [|c a IH].
  - cbn [app replace_go].
    change (x :: p ++ b) with ((x :: p) ++ b).
    rewrite startswith_app. cbn [length Nat.sub].
    now rewrite Nat.sub_0_r, replace_go_skip.
  - pose proof (no_early_occurrence (x :: p) (c :: a) b 0 Hbf Ha) as H0.
    cbn [skipn] in H0. specialize (H0 (Nat.lt_0_succ _)).
    cbn [app replace_go]. cbn [app] in H0. rewrite H0.
    f_equal. apply IH.
    apply str_in_false_index in Ha. cbn [index_of] in Ha.
    apply str_in_false_index.
    destruct (startswith (x :: p) (c :: a)); [discriminate|].
    now destruct (index_of (x :: p) a).
Qed.

Lemma strip_answer_tags_absent s :
  str_in answer_start s = false -> str_in answer_end s = false ->
  strip_answer_tags s = s.
Proof.
  intros Hs He. unfold strip_answer_tags.
  rewrite (replace_absent answer_start) by (assumption || discriminate).
  now rewrite (replace_absent answer_end) by (assumption || discriminate).
Qed.

Lemma reasoning_fragment_truthy r x :
  reasoning_fragment
    (Some {| reasoning_content := truthy r; content := x |}) = r.
Proof. now destruct r. Qed.

Lemma content_fragment_truthy x t :
  content_fragment
    (Some {| reasoning_content := x; content := truthy t |}) = t.
Proof. now destruct t. Qed.

Lemma run_cons self c cs :
  fst (run self (c :: cs))
  = fst (step self c) :: fst (run (snd (step self c)) cs).
Proof.
  cbn [run]. destruct (step self c) as [m self']. cbn [fst snd].
  now destruct (run self' cs).
Qed.

Lemma streamed_reasoning_cons m ms :
  streamed_reasoning (m :: ms) = reasoning_fragment m ++ streamed_reasoning ms.
Proof. reflexivity. Qed.

Lemma streamed_content_cons m ms :
  streamed_content (m :: ms) = content_fragment m ++ streamed_content ms.
Proof. reflexivity. Qed.

(** A call in state [thinking] on a delta without [think_end]. *)
Lemma thinking_step self c :
  current_state self = Thinking ->
  str_in think_end (delta_text c) = false ->
  reasoning_fragment (fst (step self c)) = delta_text c
  /\ content_fragment (fst (step self c)) = []
  /\ current_state (snd (step self c)) = Thinking.
Proof.
  intros Hst He. unfold_streaming. rewrite Hst, He.
  cbn [fst snd current_state]. auto.
Qed.

(** A call in state [initial] on an empty delta, nothing seen so far. *)
Lemma initial_empty_step self c :
  current_state self = Initial ->
  current_text c = [] -> delta_text c = [] ->
  reasoning_fragment (fst (step self c)) = []
  /\ content_fragment (fst (step self c)) = []
  /\ current_state (snd (step self c)) = Initial.
Proof.
  intros Hst Hcur Hd. unfold_streaming. rewrite Hst, Hcur, Hd.
  cbn. auto.
Qed.

(** A call in state [initial] when neither [think_start] is in the
    current text nor [answer_start] in the delta. *)
Lemma initial_plain_step self c :
  current_state self = Initial ->
  str_in think_start (current_text c) = false ->
  str_in answer_start (delta_text c) = false ->
  reasoning_fragment (fst (step self c)) = []
  /\ content_fragment (fst (step self c)) = delta_text c
  /\ current_state (snd (step self c)) = Initial.
Proof.
  intros Hst Hcur Hd. unfold_streaming. rewrite Hst, Hcur, Hd.
  destruct (delta_text c); cbn [fst snd current_state]; auto.
Qed.

End StreamingSteps.

Section StreamingPhases.

Implicit Types (self : parser) (R C d : str) (seen : str)
  (ids : list Z) (deltas : list (str * list Z)).

Lemma app_split_le {X : Type} : forall (a b x y : list X),
  a ++ b = x ++ y -> length a <= length x ->
  exists x', x = a ++ x' /\ b = x' ++ y.
Proof.
  induction a as [|h a IH]; intros b x y H Hlen.
  - exists x. now split.
  - destruct x as [|h' x]; simpl in Hlen; [lia|].
    simpl in H. injection H as -> H.
    destruct (IH b x y H) as (x' & -> & ->); [lia|].
    now exists x'.
Qed.

Lemma app_split_ge {X : Type} (a b x y : list X) :
  a ++ b = x ++ y -> length x <= length a ->
  exists a', a = x ++ a' /\ y = a' ++ b.
Proof.
  intros H Hlen. symmetry in H. now apply app_split_le in H.
Qed.

Lemma boundaries_shift n : forall (ds : list str),
  boundaries n ds = map (Nat.add n) (boundaries 0 ds).
Proof.
  intros ds. revert n. induction ds as [|d ds IH]; intros n; simpl.
  - reflexivity.
  - rewrite (IH (n + length d)), (IH (length d)), map_map.
    f_equal. apply map_ext. intros b. lia.
Qed.

(** Boundaries of the deltas after a first delta of length [k], seen from
    the end of that delta. *)
Lemma boundaries_after (P Q : nat -> Prop) k (ds : list str) :
  (forall b, P (k + b) -> Q b) ->
  Forall P (boundaries k ds) -> Forall Q (boundaries 0 ds).
Proof.
  intros HPQ H. rewrite boundaries_shift, Forall_map in H.
  eapply Forall_impl; [|exact H]. exact HPQ.
Qed.

Lemma final_text_cons d ids deltas :
  final_text ((d, ids) :: deltas) = d ++ final_text deltas.
Proof. reflexivity. Qed.

End StreamingPhases.

Section StreamingAgainstFullText.

Implicit Types (self : parser) (R C d : str) (seen : str)
  (ids : list Z) (deltas : list (str * list Z)).

(** While [think_start] is not in the text seen and [answer_start] in no
    delta, every delta is returned as content. *)
Lemma plain_phase : forall deltas self seen ids,
  current_state self = Initial ->
  str_in think_start (seen ++ final_text deltas) = false ->
  str_in answer_start (final_text deltas) = false ->
  streamed_reasoning (fst (run self (feed seen ids deltas))) = []
  /\ streamed_content (fst (run self (feed seen ids deltas)))
     = final_text deltas.
Proof.
  induction deltas as [|[d i] deltas IH]; intros self seen ids Hst Hs Ha.
  - split; reflexivity.
  - rewrite final_text_cons in *. rewrite app_assoc in Hs.
    pose proof (proj1 (str_in_app_false _ _ _ Hs)) as Hcur.
    apply str_in_app_false in Ha as [Ha1 Ha2].
    cbn [feed]. rewrite run_cons.
    rewrite streamed_reasoning_cons, streamed_content_cons.
    match goal with |- context [step self ?c] => set (call := c) end.
    destruct (initial_plain_step self call Hst Hcur Ha1)
      as (-> & -> & Hst').
    destruct (IH _ (seen ++ d) (ids ++ i) Hst' Hs Ha2) as [-> ->].
    split; reflexivity.
Qed.

(** The full-text result on a text without [think_start] and without
    [answer_start]. *)
Lemma extract_plain {ChatCompletionRequest : Type} (text : str)
    (request : ChatCompletionRequest) :
  str_in think_start text = false ->
  str_in answer_start text = false ->
  extract_reasoning_content text request
  = (None, absent_if_empty (strip text)).
Proof.
  intros Hs Ha. unfold extract_reasoning_content, classify.
  now rewrite Hs, Ha.
Qed.

End StreamingAgainstFullText.


(** * Further facts about the string operations *)

Section SubstringFacts.

Implicit Types (p s t u : str) (i j n k : nat).

Lemma substring_refl s : substring s s.
Proof. exists [], []. now rewrite app_nil_r. Qed.

Lemma substring_trans s t u : substring s t -> substring t u -> substring s u.
Proof.
  intros (a & b & ->) (c & d & ->).
  exists (c ++ a), (b ++ d). now rewrite <- !app_assoc.
Qed.

Lemma substring_firstn_skipn s n k : substring (firstn n (skipn k s)) s.
Proof.
  exists (firstn k s), (skipn n (skipn k s)).
  now rewrite firstn_skipn, firstn_skipn.
Qed.

Lemma substring_skipn s k : substring (skipn k s) s.
Proof.
  exists (firstn k s), []. now rewrite app_nil_r, firstn_skipn.
Qed.

Lemma substring_firstn s n : substring (firstn n s) s.
Proof. exists [], (skipn n s). apply eq_sym, firstn_skipn. Qed.

(** A slice, whatever its bounds, is a piece of the string. *)
Lemma substring_slice s (a b : Z) : substring (slice s a b) s.
Proof. apply substring_firstn_skipn. Qed.

Lemma substring_slice_from s (a : Z) : substring (slice_from s a) s.
Proof. apply substring_skipn. Qed.

Lemma substring_slice_to s (b : Z) : substring (slice_to s b) s.
Proof. apply substring_firstn. Qed.

Lemma substring_strip s : substring (strip s) s.
Proof. destruct (strip_substring s) as (a & b & H). now exists a, b. Qed.

Lemma substring_length s t : substring s t -> length s <= length t.
Proof. intros (a & b & ->). rewrite !length_app. lia. Qed.

End SubstringFacts.

Section TrimmedFacts.

Implicit Types (s t : str) (c : char).

Lemma lstrip_idem s : lstrip (lstrip s) = lstrip s.
Proof.
  induction s as [|c s IH]; [reflexivity|].
  simpl. destruct (isspace c) eqn:E; [exact IH|].
  simpl. now rewrite E.
Qed.

Lemma lstrip_head c s t : lstrip s = c :: t -> isspace c = false.
Proof.
  induction s as [|x s IH]; simpl; [discriminate|].
  destruct (isspace x) eqn:E; [exact IH|].
  intros H. injection H as -> _. exact E.
Qed.

(** What [lstrip] drops is whitespace. *)
Lemma lstrip_dropped s :
  exists a, s = a ++ lstrip s /\ forallb isspace a = true.
Proof.
  induction s as [|c s (a & IH & Ha)]; simpl.
  - now exists [].
  - destruct (isspace c) eqn:E.
    + exists (c :: a). simpl. rewrite E, Ha. split; [now f_equal|reflexivity].
    + now exists [].
Qed.

Lemma rstrip_idem s : rstrip (rstrip s) = rstrip s.
Proof. unfold rstrip. now rewrite rev_involutive, lstrip_idem. Qed.

(** Trimming on the right keeps a first character that is not
    whitespace. *)
Lemma lstrip_rstrip s : lstrip s = s -> lstrip (rstrip s) = rstrip s.
Proof.
  intros Hs. destruct (rstrip s) as [|c t] eqn:E; [reflexivity|].
  assert (Hc : isspace c = false).
  { unfold rstrip in E.
    destruct (lstrip_dropped (rev s)) as (a & Ha & Hsp).
    apply (f_equal (@rev _)) in Ha.
    rewrite rev_involutive, rev_app_distr, E in Ha.
    destruct s as [|x s']; [discriminate|].
    simpl in Ha. injection Ha as -> _.
    now apply (lstrip_head c (c :: s') s'). }
  simpl. now rewrite Hc.
Qed.

(** A trimmed text is not changed by trimming again. *)
Lemma strip_idem s : strip (strip s) = strip s.
Proof.
  unfold strip.
  rewrite (lstrip_rstrip (lstrip s) (lstrip_idem s)).
  apply rstrip_idem.
Qed.

End TrimmedFacts.

(** * More on full-text extraction *)

Section FullTextResults.

Implicit Types (text pre post R A : str).

Lemma classify_components text :
  (forall x, fst (classify text) = Some x ->
             substring x text /\ strip x = x)
  /\ (forall x, snd (classify text) = Some x ->
                substring x text /\ strip x = x).
Proof.
  unfold classify. cbv zeta.
  repeat match goal with
         | |- context [if ?b then _ else _] => destruct b
         end;
    cbn [fst snd]; split; intros x H; try discriminate;
    injection H as <-; (split; [|apply strip_idem]);
    repeat first
      [ apply substring_refl
      | eapply substring_trans;
        [ first [ apply substring_strip | apply substring_slice
                | apply substring_slice_from ] | ] ].
Qed.

(** X1. Whatever [extract_reasoning_content] returns as reasoning or as
    answer is a piece of the model output, cut out in one block, that is
    not empty and has no whitespace left at either end. *)
Theorem extract_components_are_trimmed_pieces
    {ChatCompletionRequest : Type} (model_output : str)
    (request : ChatCompletionRequest) (x : str) :
  fst (extract_reasoning_content model_output request) = Some x
  \/ snd (extract_reasoning_content model_output request) = Some x ->
  substring x model_output /\ strip x = x /\ x <> [].
Proof.
  unfold extract_reasoning_content.
  destruct (classify_components model_output) as [Hr Ha].
  destruct (classify model_output) as [r a]. cbn [fst snd] in *.
  intros [H|H].
  - destruct r as [[|c r]|]; try discriminate.
    injection H as <-. destruct (Hr _ eq_refl) as [H1 H2].
    repeat split; [assumption | assumption | discriminate].
  - destruct a as [[|c a]|]; try discriminate.
    injection H as <-. destruct (Ha _ eq_refl) as [H1 H2].
    repeat split; [assumption | assumption | discriminate].
Qed.

Lemma extract_components_are_trimmed_pieces_witness :
  substring (lit "why") (lit "x <think> why </think> yes ")
  /\ strip (lit "why") = lit "why" /\ lit "why" <> [].
Proof.
  apply (extract_components_are_trimmed_pieces
           (lit "x <think> why </think> yes ") tt (lit "why")).
  left. reflexivity.
Defined.

End FullTextResults.

Section FullTextCases.

Implicit Types (text pre post R A : str) (i j : nat).

Lemma strip_nil : strip [] = [].
Proof. reflexivity. Qed.

(** X2. A text without [think_start] has no reasoning, even when
    [think_end] occurs in it; when [answer_start] is missing too, the
    answer is the whole text, trimmed, with any [think_end] or
    [answer_end] left in it. *)
Theorem no_think_start_no_reasoning {ChatCompletionRequest : Type}
    text (request : ChatCompletionRequest) :
  ~ substring think_start text ->
  fst (extract_reasoning_content text request) = None
  /\ (~ substring answer_start text ->
      extract_reasoning_content text request
      = (None, absent_if_empty (strip text))).
Proof.
  intros Hs. apply str_in_false_iff in Hs. split.
  - unfold extract_reasoning_content, classify. rewrite Hs. cbn [andb].
    destruct (str_in answer_start text && str_in answer_end text);
      [reflexivity|].
    now destruct (str_in answer_start text).
  - intros Ha. apply str_in_false_iff in Ha. now apply extract_plain.
Qed.

Lemma no_think_start_no_reasoning_witness :
  fst (extract_reasoning_content (lit "<answer>a</think>b") tt) = None
  /\ extract_reasoning_content (lit " foo</think>bar</answer> ") tt
     = (None, Some (lit "foo</think>bar</answer>"))
  /\ extract_reasoning_content (lit "   ") tt = (None, None).
Proof.
  split; [|split].
  - refine (proj1 (no_think_start_no_reasoning
                     (lit "<answer>a</think>b") tt _)).
    apply str_in_false_iff. reflexivity.
  - refine (proj2 (no_think_start_no_reasoning
                     (lit " foo</think>bar</answer> ") tt _) _).
    + apply str_in_false_iff. reflexivity.
    + apply str_in_false_iff. reflexivity.
  - refine (proj2 (no_think_start_no_reasoning (lit "   ") tt _) _).
    + apply str_in_false_iff. reflexivity.
    + apply str_in_false_iff. reflexivity.
Defined.

(** X3. A think block that is opened and never closed: the reasoning is
    the trimmed text after the first [think_start] (absent when empty),
    there is no answer, and the text before [think_start] is dropped. *)
Theorem unterminated_think_block {ChatCompletionRequest : Type}
    text (request : ChatCompletionRequest) pre R :
  text = pre ++ think_start ++ R ->
  ~ substring think_start pre ->
  ~ substring think_end text ->
  extract_reasoning_content text request
  = (absent_if_empty (strip R), None).
Proof.
  intros Htext Hpre He. apply str_in_false_iff in Hpre, He.
  assert (Hi : index_of think_start text = Some (length pre)).
  { rewrite Htext. now apply index_of_after. }
  assert (Hs : str_in think_start text = true)
    by (apply str_in_index; eauto).
  unfold extract_reasoning_content, classify. rewrite Hs, He. cbn [andb].
  rewrite (slice_after_first _ _ Hs). unfold after_first. rewrite Hi.
  rewrite Htext at 1. now rewrite skipn_past.
Qed.

Lemma unterminated_think_block_witness :
  extract_reasoning_content (lit "intro <think> so far ") tt
  = (Some (lit "so far"), None)
  /\ extract_reasoning_content (lit "intro <think>  ") tt = (None, None).
Proof.
  split.
  - apply (unterminated_think_block (lit "intro <think> so far ") tt
             (lit "intro ") (lit " so far ")).
    + reflexivity.
    + apply str_in_false_iff. reflexivity.
    + apply str_in_false_iff. reflexivity.
  - apply (unterminated_think_block (lit "intro <think>  ") tt
             (lit "intro ") (lit "  ")).
    + reflexivity.
    + apply str_in_false_iff. reflexivity.
    + apply str_in_false_iff. reflexivity.
Defined.

(** The result for a text without [think_start] that has a closed pair
    of answer tags. *)
Lemma extract_answer_block {ChatCompletionRequest : Type}
    text (request : ChatCompletionRequest) pre A post :
  str_in think_start text = false ->
  text = pre ++ answer_start ++ A ++ answer_end ++ post ->
  str_in answer_start pre = false ->
  str_in answer_end (pre ++ answer_start ++ A) = false ->
  extract_reasoning_content text request
  = (None, absent_if_empty (strip A)).
Proof.
  intros Hs Htext Hpre Hmid.
  assert (Hi : index_of answer_start text = Some (length pre)).
  { rewrite Htext. now apply index_of_after. }
  assert (Hj : index_of answer_end text
               = Some (length (pre ++ answer_start ++ A))).
  { rewrite Htext.
    replace (pre ++ answer_start ++ A ++ answer_end ++ post)
      with ((pre ++ answer_start ++ A) ++ answer_end ++ post)
      by now rewrite <- !app_assoc.
    now apply index_of_after. }
  assert (Ha : str_in answer_start text = true)
    by (apply str_in_index; eauto).
  assert (Hb : str_in answer_end text = true)
    by (apply str_in_index; eauto).
  unfold extract_reasoning_content, classify.
  rewrite Hs, Ha, Hb. cbn [andb].
  rewrite (slice_between_first _ _ _ Ha Hb).
  rewrite Htext in Hi, Hj. rewrite Htext.
  now rewrite (proj1 (between_first_shown _ _ _ _ _ Hi Hj)).
Qed.

(** X4. Answer tags in a text without [think_start]: with both tags, the
    answer is the trimmed text between the first [answer_start] and the
    first [answer_end], and the text around the tags is dropped; with
    [answer_start] alone, the answer is the trimmed text after it.  The
    reasoning is absent in both cases. *)
Theorem answer_without_thinking {ChatCompletionRequest : Type}
    text (request : ChatCompletionRequest) :
  ~ substring think_start text ->
  (forall pre A post,
     text = pre ++ answer_start ++ A ++ answer_end ++ post ->
     ~ substring answer_start pre ->
     ~ substring answer_end (pre ++ answer_start ++ A) ->
     extract_reasoning_content text request
     = (None, absent_if_empty (strip A)))
  /\ (forall pre A,
        text = pre ++ answer_start ++ A ->
        ~ substring answer_start pre ->
        ~ substring answer_end text ->
        extract_reasoning_content text request
        = (None, absent_if_empty (strip A))).
Proof.
  intros Hs. apply str_in_false_iff in Hs. split.
  - intros pre A post Htext Hpre Hmid.
    apply str_in_false_iff in Hpre, Hmid.
    now apply (extract_answer_block text request pre A post).
  - intros pre A Htext Hpre He.
    apply str_in_false_iff in Hpre, He.
    assert (Hi : index_of answer_start text = Some (length pre)).
    { rewrite Htext. now apply index_of_after. }
    assert (Ha : str_in answer_start text = true)
      by (apply str_in_index; eauto).
    unfold extract_reasoning_content, classify.
    rewrite Hs, Ha, He. cbn [andb].
    rewrite (slice_after_first _ _ Ha). unfold after_first. rewrite Hi.
    rewrite Htext at 1. now rewrite skipn_past.
Qed.

Lemma answer_without_thinking_witness :
  extract_reasoning_content (lit "Sure: <answer> 42 </answer> bye") tt
  = (None, Some (lit "42"))
  /\ extract_reasoning_content (lit "Sure: <answer> 42 ") tt
     = (None, Some (lit "42")).
Proof.
  split.
  - refine (proj1 (answer_without_thinking
                     (lit "Sure: <answer> 42 </answer> bye") tt _)
              (lit "Sure: ") (lit " 42 ") (lit " bye") _ _ _).
    + apply str_in_false_iff. reflexivity.
    + reflexivity.
    + apply str_in_false_iff. reflexivity.
    + apply str_in_false_iff. reflexivity.
  - refine (proj2 (answer_without_thinking
                     (lit "Sure: <answer> 42 ") tt _)
              (lit "Sure: ") (lit " 42 ") _ _ _).
    + apply str_in_false_iff. reflexivity.
    + reflexivity.
    + apply str_in_false_iff. reflexivity.
    + apply str_in_false_iff. reflexivity.
Defined.

(** X5. When the first [think_end] of a text comes before its first
    [think_start], no reasoning is returned: the answer is taken from the
    trimmed text after that [think_end], the later [think_start] and what
    follows it included. *)
Theorem think_end_before_think_start {ChatCompletionRequest : Type}
    text (request : ChatCompletionRequest) i j :
  index_of think_start text = Some i ->
  index_of think_end text = Some j ->
  j <= i ->
  extract_reasoning_content text request
  = (None,
     absent_if_empty
       (spec_answer (strip (skipn (j + length think_end) text)))).
Proof.
  intros Hi Hj Hji.
  rewrite extract_think_block by (apply str_in_index; eauto).
  unfold spec_reasoning, between_first, after_first. rewrite Hi, Hj.
  replace (j - (i + length think_start)) with 0 by lia.
  reflexivity.
Qed.

Lemma think_end_before_think_start_witness :
  extract_reasoning_content (lit "oops</think> rest <think>why") tt
  = (None, Some (lit "rest <think>why")).
Proof.
  apply (think_end_before_think_start
           (lit "oops</think> rest <think>why") tt 18 4);
    [reflexivity | reflexivity | repeat constructor].
Defined.

(** X6. In a text without [think_start], when the first [answer_end]
    comes before the first [answer_start], nothing is returned at all:
    neither reasoning nor answer. *)
Theorem answer_end_before_answer_start {ChatCompletionRequest : Type}
    text (request : ChatCompletionRequest) i j :
  ~ substring think_start text ->
  index_of answer_start text = Some i ->
  index_of answer_end text = Some j ->
  j <= i ->
  extract_reasoning_content text request = (None, None).
Proof.
  intros Hs Hi Hj Hji. apply str_in_false_iff in Hs.
  assert (Ha : str_in answer_start text = true)
    by (apply str_in_index; eauto).
  assert (Hb : str_in answer_end text = true)
    by (apply str_in_index; eauto).
  unfold extract_reasoning_content, classify.
  rewrite Hs, Ha, Hb. cbn [andb].
  rewrite (slice_between_first _ _ _ Ha Hb).
  unfold between_first. rewrite Hi, Hj.
  replace (j - (i + length answer_start)) with 0 by lia.
  reflexivity.
Qed.

Lemma answer_end_before_answer_start_witness :
  extract_reasoning_content (lit "</answer>x<answer>y</answer>") tt
  = (None, None).
Proof.
  apply (answer_end_before_answer_start
           (lit "</answer>x<answer>y</answer>") tt 10 0).
  - apply str_in_false_iff. reflexivity.
  - reflexivity.
  - reflexivity.
  - apply Nat.le_0_l.
Defined.

End FullTextCases.

(** * More on the removal of the answer tags *)

Section AnswerTags.

Implicit Types (s pre post A : str).

Lemma length_replace_go old : forall s k,
  length (replace_go old [] s k) <= length s.
Proof.
  induction s as [|c s IH]; intros k; cbn [replace_go length]; [lia|].
  destruct k as [|k].
  - destruct (startswith old (c :: s)); cbn [app length].
    + specialize (IH (length old - 1)). lia.
    + specialize (IH 0). lia.
  - specialize (IH k). lia.
Qed.

Lemma length_replace_empty old s :
  old <> [] -> length (replace old [] s) <= length s.
Proof.
  intros H. destruct old as [|a old]; [congruence|].
  unfold replace. apply length_replace_go.
Qed.

Lemma length_strip_answer_tags s : length (strip_answer_tags s) <= length s.
Proof.
  unfold strip_answer_tags.
  pose proof (length_replace_empty answer_end
                (replace answer_start [] s)) as H1.
  pose proof (length_replace_empty answer_start s) as H2.
  assert (answer_end <> []) by discriminate.
  assert (answer_start <> []) by discriminate.
  specialize (H1 ltac:(assumption)). specialize (H2 ltac:(assumption)).
  lia.
Qed.

(** One pair of answer tags around [A]: the tags go, the text around and
    between them stays. *)
Lemma strip_answer_tags_around pre A post :
  str_in answer_start pre = false ->
  str_in answer_start (A ++ answer_end ++ post) = false ->
  str_in answer_end (pre ++ A) = false ->
  str_in answer_end post = false ->
  strip_answer_tags (pre ++ answer_start ++ A ++ answer_end ++ post)
  = pre ++ A ++ post.
Proof.
  intros H1 H2 H3 H4. unfold strip_answer_tags.
  rewrite replace_occurrence by (reflexivity || discriminate || assumption).
  rewrite (replace_absent answer_start) by (discriminate || assumption).
  cbn [app].
  replace (pre ++ A ++ answer_end ++ post)
    with ((pre ++ A) ++ answer_end ++ post) by now rewrite <- !app_assoc.
  rewrite replace_occurrence by (reflexivity || discriminate || assumption).
  rewrite (replace_absent answer_end) by (discriminate || assumption).
  cbn [app]. now rewrite <- app_assoc.
Qed.

(** X7. The removal of the answer tags, as done on every content
    fragment and in [extract_content_ids]: the result is never longer
    than the text; a text without answer tags is left as it is; and for a
    text with one pair of tags the tags are removed while the text
    before, between and after them is kept. *)
Theorem strip_answer_tags_effect s :
  length (strip_answer_tags s) <= length s
  /\ (~ substring answer_start s -> ~ substring answer_end s ->
      strip_answer_tags s = s)
  /\ (forall pre A post,
        s = pre ++ answer_start ++ A ++ answer_end ++ post ->
        ~ substring answer_start pre ->
        ~ substring answer_start (A ++ answer_end ++ post) ->
        ~ substring answer_end (pre ++ A) ->
        ~ substring answer_end post ->
        strip_answer_tags s = pre ++ A ++ post).
Proof.
  split; [apply length_strip_answer_tags|]. split.
  - intros Hs He. apply str_in_false_iff in Hs, He.
    now apply strip_answer_tags_absent.
  - intros pre A post -> H1 H2 H3 H4.
    apply str_in_false_iff in H1, H2, H3, H4.
    now apply strip_answer_tags_around.
Qed.

Lemma strip_answer_tags_effect_witness :
  strip_answer_tags (lit "no tags here") = lit "no tags here"
  /\ strip_answer_tags (lit "So <answer>42</answer>.") = lit "So 42.".
Proof.
  split.
  - apply (proj1 (proj2 (strip_answer_tags_effect (lit "no tags here"))));
      apply str_in_false_iff; reflexivity.
  - apply (proj2 (proj2 (strip_answer_tags_effect
                           (lit "So <answer>42</answer>.")))
             (lit "So ") (lit "42") (lit "."));
      try reflexivity; apply str_in_false_iff; reflexivity.
Defined.

End AnswerTags.

(** * More on single streaming calls *)

Section StreamingBranches.

Implicit Types (self : parser) (c : call) (pre post r A : str).

Lemma firstn_skipn_pre {X : Type} (pre rest : list X) k :
  firstn (length pre - k) (skipn k (pre ++ rest)) = skipn k pre.
Proof.
  rewrite skipn_app, firstn_app, length_skipn, Nat.sub_diag.
  cbn [firstn]. rewrite app_nil_r.
  apply firstn_all2. rewrite length_skipn. lia.
Qed.

(** X8. In state [initial], a delta that brings [think_start] and no
    [think_end] opens the think block: the message carries the delta text
    after the first [think_start] as reasoning (absent when there is none)
    and no content, the state becomes [thinking], and the delta text
    before [think_start] is not returned. *)
Theorem initial_think_opened self c pre r :
  current_state self = Initial ->
  current_text c = previous_text c ++ delta_text c ->
  delta_text c = pre ++ think_start ++ r ->
  ~ substring think_start pre ->
  ~ substring think_end (delta_text c) ->
  step self c
  = (Some {| reasoning_content := truthy r; content := None |},
     {| model_tokenizer := model_tokenizer self;
        current_state := Thinking;
        buffer := current_text c;
        thinking_complete := thinking_complete self |}).
Proof.
  intros Hst Hcur Hdelta Hpre He. apply str_in_false_iff in Hpre, He.
  assert (Hi : index_of think_start (delta_text c) = Some (length pre)).
  { rewrite Hdelta. now apply index_of_after. }
  assert (Hin : str_in think_start (delta_text c) = true)
    by (apply str_in_index; eauto).
  assert (Hbuf : str_in think_start (current_text c) = true)
    by (rewrite Hcur; now apply str_in_app_r).
  unfold_streaming.
  rewrite Hst, Hbuf, He, Hin, (find_index _ _ _ Hi), len_add.
  rewrite slice_from_nat. rewrite Hdelta at 1. now rewrite skipn_past.
Qed.

Lemma initial_think_opened_witness :
  step (init codepoint_tokenizer) (call_of [] (lit "Hi <think>first"))
  = (Some {| reasoning_content := Some (lit "first"); content := None |},
     parser_in Thinking (lit "Hi <think>first") false)
  /\ step (init codepoint_tokenizer) (call_of [] (lit "Hi <think>"))
     = (Some {| reasoning_content := None; content := None |},
        parser_in Thinking (lit "Hi <think>") false).
Proof.
  split.
  - apply (initial_think_opened (init codepoint_tokenizer)
             (call_of [] (lit "Hi <think>first")) (lit "Hi ") (lit "first"));
      try reflexivity; apply str_in_false_iff; reflexivity.
  - apply (initial_think_opened (init codepoint_tokenizer)
             (call_of [] (lit "Hi <think>")) (lit "Hi ") []);
      try reflexivity; apply str_in_false_iff; reflexivity.
Defined.

(** X9. In state [initial], when [think_start] is in the current text but
    not in the delta (it arrived earlier, cut across deltas) and the delta
    contains [think_end], the search for [think_start] in the delta gives
    [-1]: the reasoning returned is the delta text before the first
    [think_end] without its first six characters, the content is the text
    after [think_end] with the answer tags removed, and the state becomes
    [content]. *)
Theorem initial_think_closed_without_start self c pre post :
  current_state self = Initial ->
  substring think_start (current_text c) ->
  ~ substring think_start (delta_text c) ->
  delta_text c = pre ++ think_end ++ post ->
  ~ substring think_end pre ->
  step self c
  = (Some {| reasoning_content := truthy (skipn 6 pre);
             content := truthy (strip_answer_tags post) |},
     {| model_tokenizer := model_tokenizer self;
        current_state := Content;
        buffer := current_text c;
        thinking_complete := true |}).
Proof.
  intros Hst Hbuf Hs Hdelta Hpre.
  apply str_in_iff in Hbuf. apply str_in_false_iff in Hs, Hpre.
  assert (Hj : index_of think_end (delta_text c) = Some (length pre)).
  { rewrite Hdelta. now apply index_of_after. }
  assert (Hend : str_in think_end (delta_text c) = true)
    by (apply str_in_index; eauto).
  unfold_streaming.
  rewrite Hst, Hbuf, Hend, (find_none _ _ Hs), (find_index _ _ _ Hj).
  destruct (Z.ltb_spec (-1) (Z.of_nat (length pre))) as [_|Hge]; [|lia].
  change (-1 + len think_start)%Z with (Z.of_nat 6).
  rewrite slice_firstn_skipn
    by (rewrite Hdelta, length_app; lia).
  rewrite len_add, slice_from_nat.
  rewrite Hdelta, skipn_past, firstn_skipn_pre. reflexivity.
Qed.

Lemma initial_think_closed_without_start_witness :
  step (parser_in Initial (lit "<th") false)
       (call_of (lit "<th") (lit "ink>abc</think>x"))
  = (Some {| reasoning_content := Some (lit "c");
             content := Some (lit "x") |},
     parser_in Content (lit "<think>abc</think>x") true)
  /\ step (parser_in Initial (lit "<th") false)
          (call_of (lit "<th") (lit "ink></think><answer>x</answer>"))
     = (Some {| reasoning_content := None; content := Some (lit "x") |},
        parser_in Content (lit "<think></think><answer>x</answer>") true).
Proof.
  split.
  - apply (initial_think_closed_without_start
             (parser_in Initial (lit "<th") false)
             (call_of (lit "<th") (lit "ink>abc</think>x"))
             (lit "ink>abc") (lit "x")).
    + reflexivity.
    + apply str_in_iff. reflexivity.
    + apply str_in_false_iff. reflexivity.
    + reflexivity.
    + apply str_in_false_iff. reflexivity.
  - apply (initial_think_closed_without_start
             (parser_in Initial (lit "<th") false)
             (call_of (lit "<th") (lit "ink></think><answer>x</answer>"))
             (lit "ink>") (lit "<answer>x</answer>")).
    + reflexivity.
    + apply str_in_iff. reflexivity.
    + apply str_in_false_iff. reflexivity.
    + reflexivity.
    + apply str_in_false_iff. reflexivity.
Defined.

(** X10. In state [initial], with no [think_start] in the current text, a
    delta that contains [answer_start] moves the state to [content]
    without setting the thinking flag, and its whole text with the answer
    tags removed is the content: for one pair of tags, the text before,
    between and after the tags. *)
Theorem initial_answer_started self c :
  current_state self = Initial ->
  ~ substring think_start (current_text c) ->
  substring answer_start (delta_text c) ->
  step self c
  = (Some {| reasoning_content := None;
             content := truthy (strip_answer_tags (delta_text c)) |},
     {| model_tokenizer := model_tokenizer self;
        current_state := Content;
        buffer := current_text c;
        thinking_complete := thinking_complete self |})
  /\ forall pre A post,
       delta_text c = pre ++ answer_start ++ A ++ answer_end ++ post ->
       ~ substring answer_start pre ->
       ~ substring answer_start (A ++ answer_end ++ post) ->
       ~ substring answer_end (pre ++ A) ->
       ~ substring answer_end post ->
       content_fragment (fst (step self c)) = pre ++ A ++ post.
Proof.
  intros Hst Hbuf Ha.
  apply str_in_false_iff in Hbuf. apply str_in_iff in Ha.
  assert (Hstep : step self c
    = (Some {| reasoning_content := None;
               content := truthy (strip_answer_tags (delta_text c)) |},
       {| model_tokenizer := model_tokenizer self;
          current_state := Content;
          buffer := current_text c;
          thinking_complete := thinking_complete self |})).
  { unfold_streaming. now rewrite Hst, Hbuf, Ha. }
  split; [exact Hstep|].
  intros pre A post Hdelta H1 H2 H3 H4.
  apply str_in_false_iff in H1, H2, H3, H4.
  rewrite Hstep. cbn [fst]. rewrite content_fragment_truthy, Hdelta.
  now apply strip_answer_tags_around.
Qed.

Lemma initial_answer_started_witness :
  step (init codepoint_tokenizer)
       (call_of [] (lit "So <answer>42</answer>."))
  = (Some {| reasoning_content := None; content := Some (lit "So 42.") |},
     parser_in Content (lit "So <answer>42</answer>.") false)
  /\ content_fragment
       (fst (step (init codepoint_tokenizer)
                  (call_of [] (lit "So <answer>42</answer>."))))
     = lit "So 42.".
Proof.
  destruct (initial_answer_started (init codepoint_tokenizer)
              (call_of [] (lit "So <answer>42</answer>.")))
    as [Hstep Hfrag].
  - reflexivity.
  - apply str_in_false_iff. reflexivity.
  - apply str_in_iff. reflexivity.
  - split; [exact Hstep|].
    apply (Hfrag (lit "So ") (lit "42") (lit "."));
      try reflexivity; apply str_in_false_iff; reflexivity.
Defined.

End StreamingBranches.

(** * What any streaming call returns *)

Section StreamingMessages.

Implicit Types (self : parser) (c : call) (s t : str) (d : DeltaMessage).

Lemma truthy_not_empty s : truthy s <> Some [].
Proof. destruct s; discriminate. Qed.

Lemma content_state_step self c :
  current_state self = Content ->
  (fst (step self c) = None
   \/ exists t, t <> []
        /\ fst (step self c)
           = Some {| reasoning_content := None; content := Some t |})
  /\ current_state (snd (step self c)) = Content.
Proof.
  intros Hst. unfold_streaming. rewrite Hst.
  destruct (strip_answer_tags (delta_text c)) as [|x t];
    cbn [fst snd current_state]; split; auto.
  right. exists (x :: t). split; [discriminate|reflexivity].
Qed.

(** X11. Once an instance is in state [content], every message it returns
    on later calls carries content that is not empty and no reasoning. *)
Theorem content_state_only_content self (cs : list call) :
  current_state self = Content ->
  Forall (fun m => forall d, m = Some d ->
            reasoning_content d = None
            /\ exists t, content d = Some t /\ t <> [])
         (fst (run self cs)).
Proof.
  revert self. induction cs as [|c cs IH]; intros self Hst.
  - constructor.
  - rewrite run_cons.
    destruct (content_state_step self c Hst) as [Hm Hst'].
    constructor; [|now apply IH].
    intros d Hd. destruct Hm as [Hm|(t & Ht & Hm)]; rewrite Hm in Hd.
    + discriminate.
    + injection Hd as <-. cbn. split; [reflexivity|]. now exists t.
Qed.

Lemma content_state_only_content_witness :
  Forall (fun m => forall d, m = Some d ->
            reasoning_content d = None
            /\ exists t, content d = Some t /\ t <> [])
         (fst (run (parser_in Content (lit "<think>a</think>") true)
                   [call_of (lit "<think>a</think>") (lit "<think>b");
                    call_of (lit "<think>a</think><think>b")
                            (lit "</answer>")])).
Proof.
  apply (content_state_only_content
           (parser_in Content (lit "<think>a</think>") true)).
  reflexivity.
Defined.

(** X12. In no state does a call return the empty string as content; and
    it returns the empty string as reasoning only when the delta itself
    is empty. *)
Theorem message_fields_not_empty self c d :
  fst (step self c) = Some d ->
  content d <> Some []
  /\ (reasoning_content d = Some [] -> delta_text c = []).
Proof.
  unfold_streaming. destruct (current_state self).
  - destruct (str_in think_start (current_text c)).
    + destruct (str_in think_end (delta_text c)).
      * destruct (find think_start (delta_text c)
                  <? find think_end (delta_text c))%Z;
          cbn [fst]; intros H; [|discriminate].
        injection H as <-. cbn. split; [apply truthy_not_empty|].
        intros H. now apply truthy_not_empty in H.
      * destruct (str_in think_start (delta_text c));
          cbn [fst]; intros H; injection H as <-; cbn;
          (split; [discriminate|]); intros H.
        -- now apply truthy_not_empty in H.
        -- now injection H.
    + destruct (str_in answer_start (delta_text c)).
      * cbn [fst]. intros H. injection H as <-. cbn.
        split; [apply truthy_not_empty | discriminate].
      * destruct (delta_text c) as [|x t]; cbn [fst]; intros H;
          [discriminate|]. injection H as <-. cbn.
        split; discriminate.
  - destruct (str_in think_end (delta_text c));
      cbn [fst]; intros H; injection H as <-; cbn.
    + split; [apply truthy_not_empty|].
      intros H. now apply truthy_not_empty in H.
    + split; [discriminate|]. intros H. now injection H.
  - destruct (strip_answer_tags (delta_text c)) as [|x t];
      cbn [fst]; intros H; [discriminate|]. injection H as <-. cbn.
    split; discriminate.
Qed.

Lemma message_fields_not_empty_witness :
  content {| reasoning_content := Some []; content := None |} <> Some []
  /\ (reasoning_content {| reasoning_content := Some []; content := None |}
      = Some [] ->
      delta_text (call_of (lit "<think>") []) = []).
Proof.
  apply (message_fields_not_empty
           (parser_in Thinking (lit "<think>") false)
           (call_of (lit "<think>") [])).
  reflexivity.
Defined.

Lemma length_slice_then_from s (a : Z) j k :
  length (slice s a (Z.of_nat j)) + length (slice_from s (Z.of_nat (j + k)))
  <= length s.
Proof.
  unfold slice, slice_from. rewrite !clamp_nat.
  rewrite length_firstn, !length_skipn. lia.
Qed.

Lemma length_slice_to_then_from s j k :
  length (slice_to s (Z.of_nat j)) + length (slice_from s (Z.of_nat (j + k)))
  <= length s.
Proof.
  unfold slice_to, slice_from. rewrite !clamp_nat.
  rewrite length_firstn, !length_skipn. lia.
Qed.

Lemma step_emits_at_most self c :
  length (reasoning_fragment (fst (step self c)))
  + length (content_fragment (fst (step self c)))
  <= length (delta_text c).
Proof.
  unfold_streaming. destruct (current_state self).
  - destruct (str_in think_start (current_text c)).
    + destruct (str_in think_end (delta_text c)) eqn:He.
      * apply str_in_index in He as [j Hj].
        rewrite (find_index _ _ _ Hj), len_add.
        destruct (find think_start (delta_text c) <? Z.of_nat j)%Z;
          cbn [fst]; [|cbn; lia].
        rewrite reasoning_fragment_truthy, content_fragment_truthy.
        pose proof (length_strip_answer_tags
                      (slice_from (delta_text c)
                         (Z.of_nat (j + length think_end)))).
        pose proof (length_slice_then_from (delta_text c)
                      (find think_start (delta_text c)
                       + len think_start)%Z j (length think_end)).
        lia.
      * destruct (str_in think_start (delta_text c)); cbn [fst].
        -- rewrite reasoning_fragment_truthy. cbn [content_fragment length].
           pose proof (substring_length _ _
                         (substring_slice_from (delta_text c)
                            (find think_start (delta_text c)
                             + len think_start)%Z)).
           lia.
        -- cbn. lia.
    + destruct (str_in answer_start (delta_text c)); cbn [fst].
      * rewrite content_fragment_truthy. cbn [reasoning_fragment length].
        apply length_strip_answer_tags.
      * destruct (delta_text c); cbn; lia.
  - destruct (str_in think_end (delta_text c)) eqn:He.
    + apply str_in_index in He as [j Hj].
      rewrite (find_index _ _ _ Hj), len_add. cbn [fst].
      rewrite reasoning_fragment_truthy, content_fragment_truthy.
      pose proof (length_strip_answer_tags
                    (slice_from (delta_text c)
                       (Z.of_nat (j + length think_end)))).
      pose proof (length_slice_to_then_from (delta_text c) j
                    (length think_end)).
      lia.
    + cbn. lia.
  - pose proof (length_strip_answer_tags (delta_text c)) as H.
    destruct (strip_answer_tags (delta_text c)); cbn in *; lia.
Qed.

(** X13. Over any sequence of calls on an instance in any state, the
    reasoning and content fragments returned are together never longer
    than the deltas received. *)
Theorem streaming_emits_at_most_the_text self (cs : list call) :
  length (streamed_reasoning (fst (run self cs)))
  + length (streamed_content (fst (run self cs)))
  <= length (concat (map delta_text cs)).
Proof.
  revert self. induction cs as [|c cs IH]; intros self.
  - cbn. lia.
  - rewrite run_cons, streamed_reasoning_cons, streamed_content_cons.
    cbn [map concat]. rewrite !length_app.
    pose proof (step_emits_at_most self c).
    specialize (IH (snd (step self c))). lia.
Qed.

(** X14. The reasoning fragment of a returned message is always a piece
    of the delta of that call, cut out in one block. *)
Theorem reasoning_fragment_is_piece_of_delta self c :
  substring (reasoning_fragment (fst (step self c))) (delta_text c).
Proof.
  assert (Hnil : forall s, substring [] s) by (intros s; now exists [], s).
  unfold_streaming. destruct (current_state self).
  - destruct (str_in think_start (current_text c)).
    + destruct (str_in think_end (delta_text c)).
      * destruct (find think_start (delta_text c)
                  <? find think_end (delta_text c))%Z; cbn [fst].
        -- rewrite reasoning_fragment_truthy. apply substring_slice.
        -- apply Hnil.
      * destruct (str_in think_start (delta_text c)); cbn [fst].
        -- rewrite reasoning_fragment_truthy. apply substring_slice_from.
        -- apply substring_refl.
    + destruct (str_in answer_start (delta_text c)); cbn [fst].
      * apply Hnil.
      * destruct (delta_text c); apply Hnil.
  - destruct (str_in think_end (delta_text c)); cbn [fst].
    + rewrite reasoning_fragment_truthy. apply substring_slice_to.
    + apply substring_refl.
  - destruct (strip_answer_tags (delta_text c)); apply Hnil.
Qed.

End StreamingMessages.

(** * The instance over its lifetime *)

Section InstanceInvariants.

Implicit Types (self q : parser) (c : call).

Lemma step_keeps self c :
  model_tokenizer (snd (step self c)) = model_tokenizer self
  /\ buffer (snd (step self c)) = current_text c
  /\ (thinking_complete self = true ->
      thinking_complete (snd (step self c)) = true)
  /\ ((thinking_complete self = true -> current_state self = Content) ->
      thinking_complete (snd (step self c)) = true ->
      current_state (snd (step self c)) = Content).
Proof.
  destruct self as [tok st buf tc]. unfold_streaming.
  destruct st;
    repeat match goal with
           | |- context [if ?b then _ else _] => destruct b
           | |- context [match ?l with [] => _ | _ :: _ => _ end] =>
               destruct l
           end;
    cbn [snd model_tokenizer buffer thinking_complete current_state];
    repeat split; auto; intros H1 H2; try discriminate; auto;
    cbn in H2; specialize (H1 H2); discriminate.
Qed.

Lemma trace_keeps tok : forall (cs : list call) self,
  model_tokenizer self = tok ->
  (thinking_complete self = true -> current_state self = Content) ->
  map buffer (trace self cs) = map current_text cs
  /\ Forall (fun q => model_tokenizer q = tok
                      /\ (thinking_complete q = true ->
                          current_state q = Content))
            (trace self cs).
Proof.
  induction cs as [|c cs IH]; intros self Htok Hinv; cbn [trace map].
  - split; constructor.
  - destruct (step_keeps self c) as (H1 & H2 & _ & H4).
    destruct (IH (snd (step self c))) as [IHb IHf];
      [congruence | auto |].
    split; [now rewrite H2, IHb|].
    constructor; [split; [congruence | auto] | exact IHf].
Qed.

Lemma trace_flag : forall (cs : list call) self,
  thinking_complete self = true ->
  Forall (fun q => thinking_complete q = true) (trace self cs).
Proof.
  induction cs as [|c cs IH]; intros self H; cbn [trace]; constructor.
  - now apply step_keeps.
  - apply IH. now apply step_keeps.
Qed.

(** X15. Over the calls made on a fresh instance: after each call the
    buffer holds the current text of that call; the tokenizer is the one
    the instance was built with; and whenever the thinking flag is set the
    state is [content] (the flag is set only together with the move to
    [content], and the state never leaves [content]). *)
Theorem fresh_instance_invariants
    (tokenizer : PreTrainedTokenizerBase) (cs : list call) :
  map buffer (trace (init tokenizer) cs) = map current_text cs
  /\ Forall (fun q => model_tokenizer q = tokenizer
                      /\ (thinking_complete q = true ->
                          current_state q = Content))
            (trace (init tokenizer) cs).
Proof. apply trace_keeps; [reflexivity | discriminate]. Qed.

(** X16. The thinking flag is never cleared: on an instance whose flag is
    set, it is set after every later call. *)
Theorem thinking_flag_stays_set self (cs : list call) :
  thinking_complete self = true ->
  Forall (fun q => thinking_complete q = true) (trace self cs).
Proof. apply trace_flag. Qed.

Lemma thinking_flag_stays_set_witness :
  Forall (fun q => thinking_complete q = true)
         (trace (parser_in Content (lit "<think>a</think>") true)
                [call_of (lit "<think>a</think>") (lit "<think>b");
                 call_of (lit "<think>a</think><think>b") (lit "x")]).
Proof.
  apply (thinking_flag_stays_set
           (parser_in Content (lit "<think>a</think>") true)).
  reflexivity.
Defined.

End InstanceInvariants.

(** * Token ids and streamed content *)

Section ContentIds.

Implicit Types (self thinker : parser) (c : call).

(** X17. [extract_content_ids] and the streaming extractor agree on what
    follows the think block: when the decoded text contains [think_end],
    the ids returned are the encoding of the content fragment that an
    instance in state [thinking] returns for that text as a delta. *)
Theorem content_ids_match_streamed_content
    self (input_ids : list Z) thinker c :
  current_state thinker = Thinking ->
  delta_text c = decode (model_tokenizer self) input_ids true ->
  is_reasoning_end self input_ids = true ->
  extract_content_ids self input_ids
  = encode (model_tokenizer self)
           (content_fragment (fst (step thinker c))) false.
Proof.
  unfold is_reasoning_end, extract_content_ids. cbv zeta.
  intros Hst Hdelta Hend. rewrite <- Hdelta in *.
  rewrite Hend. apply str_in_index in Hend as [j Hj].
  rewrite (split_once _ _ _ Hj). cbn [length Nat.ltb Nat.leb nth].
  unfold_streaming.
  assert (Hin : str_in think_end (delta_text c) = true)
    by (apply str_in_index; eauto).
  rewrite Hst, Hin, (find_index _ _ _ Hj), len_add, slice_from_nat.
  cbn [fst]. now rewrite content_fragment_truthy.
Qed.

Lemma content_ids_match_streamed_content_witness :
  extract_content_ids (init codepoint_tokenizer)
    (map Z.of_N (lit "foo</think><answer>bar</answer>"))
  = encode codepoint_tokenizer
      (content_fragment
         (fst (step (parser_in Thinking (lit "<think>") false)
                    (call_of (lit "<think>")
                       (lit "foo</think><answer>bar</answer>")))))
      false.
Proof.
  apply (content_ids_match_streamed_content
           (init codepoint_tokenizer)
           (map Z.of_N (lit "foo</think><answer>bar</answer>"))
           (parser_in Thinking (lit "<think>") false)
           (call_of (lit "<think>")
              (lit "foo</think><answer>bar</answer>")));
    reflexivity.
Defined.

End ContentIds.

(** * The documented formats in one delta *)

Section SingleDelta.

Implicit Types (R A : str) (ids : list Z).

Lemma streamed_single tokenizer d ids :
  stream tokenizer [(d, ids)]
  = [fst (step (init tokenizer)
               {| previous_text := []; current_text := d;
                  delta_text := d;
                  previous_token_ids := [];
                  current_token_ids := ids;
                  delta_token_ids := ids |})].
Proof.
  unfold stream. cbn [feed app]. rewrite run_cons. reflexivity.
Qed.

(** X18. The format [<answer>A</answer>], without thinking, arriving in
    one delta on a fresh instance: no reasoning is returned, the content
    is [A], and this agrees with the full-text result, whose answer is
    the trimmed [A], up to the trim. *)
Theorem single_delta_answer_only {ChatCompletionRequest : Type}
    (tokenizer : PreTrainedTokenizerBase) A ids
    (request : ChatCompletionRequest) :
  ~ substring think_start (answer_start ++ A ++ answer_end) ->
  ~ substring answer_start (A ++ answer_end) ->
  ~ substring answer_end A ->
  let deltas := [(answer_start ++ A ++ answer_end, ids)] in
  streamed_reasoning (stream tokenizer deltas) = []
  /\ streamed_content (stream tokenizer deltas) = A
  /\ extract_reasoning_content (final_text deltas) request
     = (None, absent_if_empty (strip A))
  /\ streaming_agrees_with_full tokenizer deltas request.
Proof.
  intros Hs Ha He deltas.
  apply str_in_false_iff in Hs, Ha, He.
  set (text := answer_start ++ A ++ answer_end) in *.
  assert (Htags : strip_answer_tags text = A).
  { pose proof (strip_answer_tags_around [] A []) as H.
    cbn [app] in H. rewrite !app_nil_r in H. now apply H. }
  assert (Hfull : extract_reasoning_content text request
                  = (None, absent_if_empty (strip A))).
  { apply (extract_answer_block text request [] A []);
      [assumption | unfold text; now rewrite app_nil_r | reflexivity |].
    change ([] ++ answer_start ++ A) with (answer_start ++ A).
    now rewrite (str_in_across answer_end answer_start A) by reflexivity. }
  assert (Hstream : stream tokenizer deltas
                    = [Some {| reasoning_content := None;
                               content := truthy A |}]).
  { unfold deltas. rewrite streamed_single. f_equal.
    assert (Hin : str_in answer_start text = true)
      by exact (str_in_after answer_start [] (A ++ answer_end)).
    unfold_streaming. rewrite Hs, Hin.
    cbn [fst]. now rewrite Htags. }
  assert (Hfinal : final_text deltas = text)
    by (unfold deltas, final_text; cbn [map fst concat]; apply app_nil_r).
  unfold streaming_agrees_with_full, agrees_up_to_trim.
  rewrite Hstream, Hfinal, Hfull.
  unfold streamed_reasoning, streamed_content. cbn [map concat].
  rewrite content_fragment_truthy, !app_nil_r.
  repeat split; reflexivity.
Qed.

Lemma single_delta_answer_only_witness :
  streamed_reasoning
    (stream codepoint_tokenizer [(lit "<answer> hi </answer>", [])]) = []
  /\ streamed_content
       (stream codepoint_tokenizer [(lit "<answer> hi </answer>", [])])
     = lit " hi "
  /\ extract_reasoning_content
       (final_text [(lit "<answer> hi </answer>", [])]) tt
     = (None, Some (lit "hi"))
  /\ streaming_agrees_with_full codepoint_tokenizer
       [(lit "<answer> hi </answer>", [])] tt.
Proof.
  apply (single_delta_answer_only codepoint_tokenizer (lit " hi ") [] tt);
    apply str_in_false_iff; reflexivity.
Defined.

(** X19. The format [<think>R</think><answer>A</answer>] arriving in one
    delta on a fresh instance: the reasoning returned is [R] and the
    content is [A], and this agrees with the full-text result, the
    trimmed [R] and the trimmed [A], up to the trim. *)
Theorem single_delta_think_answer {ChatCompletionRequest : Type}
    (tokenizer : PreTrainedTokenizerBase) R A ids
    (request : ChatCompletionRequest) :
  ~ substring think_end R ->
  ~ substring answer_start (A ++ answer_end) ->
  ~ substring answer_end A ->
  let deltas := [(think_answer_text R A, ids)] in
  streamed_reasoning (stream tokenizer deltas) = R
  /\ streamed_content (stream tokenizer deltas) = A
  /\ extract_reasoning_content (final_text deltas) request
     = (absent_if_empty (strip R), absent_if_empty (strip A))
  /\ streaming_agrees_with_full tokenizer deltas request.
Proof.
  intros HR Ha He deltas.
  apply str_in_false_iff in HR, Ha, He.
  assert (Htags : strip_answer_tags (answer_start ++ A ++ answer_end) = A).
  { pose proof (strip_answer_tags_around [] A []) as H.
    cbn [app] in H. rewrite !app_nil_r in H. now apply H. }
  assert (Hfull : extract_reasoning_content (think_answer_text R A) request
                  = (absent_if_empty (strip R), absent_if_empty (strip A))).
  { rewrite extract_think_block.
    - now destruct (spec_spans_of_think_answer_text R A HR He) as [-> ->].
    - apply (str_in_after think_start []).
    - unfold think_answer_text.
      replace (think_start ++ R ++ think_end ++ answer_start ++ A
               ++ answer_end)
        with ((think_start ++ R) ++ think_end
              ++ answer_start ++ A ++ answer_end)
        by now rewrite <- !app_assoc.
      apply str_in_after. }
  assert (Hstream : stream tokenizer deltas
                    = [Some {| reasoning_content := truthy R;
                               content := truthy A |}]).
  { unfold deltas. rewrite streamed_single. f_equal.
    rewrite (step_whole_block _ _ [] R (answer_start ++ A ++ answer_end));
      try reflexivity.
    - cbn [fst]. now rewrite Htags.
    - change ([] ++ think_start ++ R) with (think_start ++ R).
      now rewrite (str_in_across think_end think_start R) by reflexivity. }
  assert (Hfinal : final_text deltas = think_answer_text R A)
    by (unfold deltas, final_text; cbn [map fst concat]; apply app_nil_r).
  unfold streaming_agrees_with_full, agrees_up_to_trim.
  rewrite Hstream, Hfinal, Hfull.
  unfold streamed_reasoning, streamed_content. cbn [map concat].
  rewrite reasoning_fragment_truthy, content_fragment_truthy, !app_nil_r.
  repeat split; reflexivity.
Qed.

Lemma single_delta_think_answer_witness :
  streamed_reasoning
    (stream codepoint_tokenizer
       [(think_answer_text (lit " why ") (lit " yes "), [])]) = lit " why "
  /\ streamed_content
       (stream codepoint_tokenizer
          [(think_answer_text (lit " why ") (lit " yes "), [])])
     = lit " yes "
  /\ extract_reasoning_content
       (final_text [(think_answer_text (lit " why ") (lit " yes "), [])])
       tt
     = (Some (lit "why"), Some (lit "yes"))
  /\ streaming_agrees_with_full codepoint_tokenizer
       [(think_answer_text (lit " why ") (lit " yes "), [])] tt.
Proof.
  apply (single_delta_think_answer codepoint_tokenizer
           (lit " why ") (lit " yes ") [] tt);
    apply str_in_false_iff; reflexivity.
Defined.

End SingleDelta.

Section ContentState.

Implicit Types (self : parser) (c : call).

(** X20. In state [content] the think delimiters are ordinary text: a
    non-empty delta without answer tags is returned whole as content,
    whatever else it contains; a delta of which nothing is left once the
    answer tags are removed returns no message.  Either way only the
    buffer of the instance changes. *)
Theorem content_state_passes_text self c :
  current_state self = Content ->
  (~ substring answer_start (delta_text c) ->
   ~ substring answer_end (delta_text c) ->
   delta_text c <> [] ->
   fst (step self c)
   = Some {| reasoning_content := None; content := Some (delta_text c) |})
  /\ (strip_answer_tags (delta_text c) = [] -> fst (step self c) = None)
  /\ snd (step self c) = set_buffer self (current_text c).
Proof.
  intros Hst. repeat split.
  - intros Hs He Hne. apply str_in_false_iff in Hs, He.
    unfold_streaming. rewrite Hst, strip_answer_tags_absent by assumption.
    now destruct (delta_text c).
  - intros H. unfold_streaming. now rewrite Hst, H.
  - unfold_streaming. rewrite Hst.
    now destruct (strip_answer_tags (delta_text c)).
Qed.

Lemma content_state_passes_text_witness :
  fst (step (parser_in Content (lit "<think>a</think>") true)
            (call_of (lit "<think>a</think>") (lit "<think>b</think>")))
  = Some {| reasoning_content := None;
            content := Some (lit "<think>b</think>") |}
  /\ fst (step (parser_in Content (lit "<answer>a") false)
               (call_of (lit "<answer>a") (lit "</answer>")))
     = None.
Proof.
  split.
  - apply (proj1 (content_state_passes_text
                    (parser_in Content (lit "<think>a</think>") true)
                    (call_of (lit "<think>a</think>")
                       (lit "<think>b</think>")) eq_refl)).
    + apply str_in_false_iff. reflexivity.
    + apply str_in_false_iff. reflexivity.
    + discriminate.
  - apply (proj1 (proj2 (content_state_passes_text
                    (parser_in Content (lit "<answer>a") false)
                    (call_of (lit "<answer>a") (lit "</answer>"))
                    eq_refl))).
    reflexivity.
Defined.

End ContentState.

Section InvariantRuns.

Lemma fresh_instance_invariants_witness :
  map buffer
      (trace (init codepoint_tokenizer)
             [call_of [] (lit "<think>a"); call_of (lit "<think>a")
                                             (lit "</think>b")])
  = [lit "<think>a"; lit "<think>a</think>b"]
  /\ Forall (fun q => model_tokenizer q = codepoint_tokenizer
                      /\ (thinking_complete q = true ->
                          current_state q = Content))
            (trace (init codepoint_tokenizer)
                   [call_of [] (lit "<think>a");
                    call_of (lit "<think>a") (lit "</think>b")]).
Proof.
  apply (fresh_instance_invariants codepoint_tokenizer
           [call_of [] (lit "<think>a");
            call_of (lit "<think>a") (lit "</think>b")]).
Defined.

End InvariantRuns.

(** * A whole think block in one delta *)

Section WholeBlock.

Implicit Types (self : parser) (c : call).



End WholeBlock.

(** * Streaming against the full text, layout by layout *)

Section TagsApart.

Implicit Types (p a b s x : str) (k j : nat).

(** [p] occurs in [a ++ b] only inside [a] or inside [b], when no proper
    end of [p] begins [b]. *)
Lemma str_in_app_apart p a b :
  forallb (fun k => negb (startswith (skipn k p) b))
          (seq 1 (length p - 1)) = true ->
  str_in p a = false -> str_in p b = false ->
  str_in p (a ++ b) = false.
Proof.
  intros Hends Ha Hb. apply str_in_false_index.
  destruct (index_of p (a ++ b)) as [j|] eqn:E; [exfalso|reflexivity].
  pose proof (index_of_occurs _ _ _ E) as Hocc.
  destruct (Nat.lt_ge_cases j (length a)) as [Hlt|Hge].
  - rewrite skipn_app in Hocc.
    replace (j - length a) with 0 in Hocc by lia. cbn [skipn] in Hocc.
    destruct (Nat.le_gt_cases (length p) (length (skipn j a)))
      as [Hle|Hgt].
    + rewrite startswith_app_l in Hocc by assumption.
      apply str_in_false_index in Ha.
      now rewrite (index_of_none _ _ j Ha) in Hocc.
    + pose proof (startswith_overrun _ _ _ Hgt Hocc) as H.
      rewrite forallb_forall in Hends.
      specialize (Hends (length (skipn j a))).
      rewrite in_seq, length_skipn in Hends.
      rewrite length_skipn in H, Hgt.
      rewrite H in Hends. cbn in Hends.
      assert (false = true) by (apply Hends; lia). discriminate.
  - replace j with ((j - length a) + length a) in Hocc by lia.
    rewrite <- skipn_skipn, skipn_pre in Hocc.
    apply str_in_false_index in Hb.
    now rewrite (index_of_none _ _ _ Hb) in Hocc.
Qed.

(** The removal of the answer tags on a piece that opens an answer. *)
Lemma strip_answer_tags_opening x :
  str_in answer_start x = false -> str_in answer_end x = false ->
  strip_answer_tags (answer_start ++ x) = x.
Proof.
  intros Hs He. unfold strip_answer_tags.
  pose proof (replace_occurrence answer_start [] [] x) as H.
  cbn [app] in H. rewrite H by (reflexivity || discriminate).
  rewrite (replace_absent answer_start) by (discriminate || assumption).
  now rewrite (replace_absent answer_end) by (discriminate || assumption).
Qed.

End TagsApart.

Section TrimmingBothEnds.

Implicit Types (s x y a : str) (c : char).

Lemma lstrip_app_single x c :
  lstrip (x ++ [c])
  = match lstrip x with
    | [] => if isspace c then [] else [c]
    | _ :: _ => lstrip x ++ [c]
    end.
Proof.
  induction x as [|d x IH]; [reflexivity|].
  cbn [app lstrip]. destruct (isspace d); [exact IH|reflexivity].
Qed.

Lemma rstrip_cons c s :
  rstrip (c :: s)
  = match rstrip s with
    | [] => if isspace c then [] else [c]
    | _ :: _ => c :: rstrip s
    end.
Proof.
  unfold rstrip. cbn [rev]. rewrite lstrip_app_single.
  destruct (lstrip (rev s)) as [|z zs]; cbn [rev].
  - now destruct (isspace c).
  - rewrite rev_app_distr. cbn [rev app].
    destruct (rev zs ++ [z]) eqn:E; [|reflexivity].
    now apply app_eq_nil in E as [_ E].
Qed.

(** Trimming on the right stops at a character that is not whitespace. *)
Lemma rstrip_cons_nonspace c s :
  isspace c = false -> rstrip (c :: s) = c :: rstrip s.
Proof.
  intros H. rewrite rstrip_cons, H. now destruct (rstrip s).
Qed.

Lemma rstrip_spaces a : forallb isspace a = true -> rstrip a = [].
Proof.
  induction a as [|c a IH]; [reflexivity|].
  cbn [forallb]. intros H. apply andb_true_iff in H as [Hc Ha].
  now rewrite rstrip_cons, (IH Ha), Hc.
Qed.

Lemma lstrip_spaces_app a y :
  forallb isspace a = true -> lstrip (a ++ y) = lstrip y.
Proof.
  induction a as [|c a IH]; [reflexivity|].
  cbn [forallb app lstrip]. intros H.
  apply andb_true_iff in H as [-> Ha]. now apply IH.
Qed.

Lemma rstrip_app_keep a y :
  rstrip y <> [] -> rstrip (a ++ y) = a ++ rstrip y.
Proof.
  intros Hy. induction a as [|c a IH]; [reflexivity|].
  cbn [app]. rewrite rstrip_cons, IH.
  destruct (a ++ rstrip y) eqn:E; [|reflexivity].
  now apply app_eq_nil in E as [_ E].
Qed.

(** The two trims commute. *)
Lemma lstrip_rstrip_comm s : lstrip (rstrip s) = rstrip (lstrip s).
Proof.
  destruct (lstrip_dropped s) as (a & Hs & Ha).
  destruct (lstrip s) as [|c y] eqn:E.
  - rewrite app_nil_r in Hs. subst a.
    now rewrite (rstrip_spaces s Ha).
  - assert (Hc : isspace c = false) by now apply (lstrip_head c s y).
    assert (Hne : rstrip (c :: y) <> [])
      by (rewrite rstrip_cons_nonspace by assumption; discriminate).
    rewrite Hs at 1. rewrite rstrip_app_keep by assumption.
    rewrite lstrip_spaces_app by assumption.
    apply lstrip_rstrip. cbn [lstrip]. now rewrite Hc.
Qed.

(** Text trimmed on the right first trims to the same result. *)
Lemma strip_rstrip s : strip (rstrip s) = strip s.
Proof.
  unfold strip. now rewrite lstrip_rstrip_comm, rstrip_idem.
Qed.

Lemma strip_answer_open x :
  strip (answer_start ++ x) = answer_start ++ rstrip x.
Proof.
  unfold strip.
  change (answer_start ++ x) with (60%N :: skipn 1 answer_start ++ x).
  rewrite lstrip_nonspace by reflexivity.
  change (60%N :: skipn 1 answer_start ++ x) with (answer_start ++ x).
  unfold answer_start, lit. cbn [list_ascii_of_string map app].
  now rewrite !rstrip_cons_nonspace by reflexivity.
Qed.

End TrimmingBothEnds.

Section FragmentsOfACall.

Implicit Types (self : parser) (c : call) (pre r R post : str).

Lemma content_any_step self c :
  current_state self = Content ->
  reasoning_fragment (fst (step self c)) = []
  /\ content_fragment (fst (step self c))
     = strip_answer_tags (delta_text c)
  /\ current_state (snd (step self c)) = Content.
Proof.
  intros Hst. unfold_streaming. rewrite Hst.
  destruct (strip_answer_tags (delta_text c));
    cbn [fst snd current_state]; auto.
Qed.

Lemma step_opened_fragments self c pre r :
  current_state self = Initial ->
  current_text c = previous_text c ++ delta_text c ->
  delta_text c = pre ++ think_start ++ r ->
  str_in think_start pre = false ->
  str_in think_end (delta_text c) = false ->
  reasoning_fragment (fst (step self c)) = r
  /\ content_fragment (fst (step self c)) = []
  /\ current_state (snd (step self c)) = Thinking.
Proof.
  intros Hst Hcur Hdelta Hpre He.
  assert (Hi : index_of think_start (delta_text c) = Some (length pre)).
  { rewrite Hdelta. now apply index_of_after. }
  assert (Hin : str_in think_start (delta_text c) = true)
    by (apply str_in_index; eauto).
  assert (Hbuf : str_in think_start (current_text c) = true)
    by (rewrite Hcur; now apply str_in_app_r).
  assert (Hstep : fst (step self c)
                  = Some {| reasoning_content := truthy r;
                            content := None |}
                  /\ current_state (snd (step self c)) = Thinking).
  { unfold_streaming.
    rewrite Hst, Hbuf, He, Hin, (find_index _ _ _ Hi), len_add.
    rewrite slice_from_nat. cbn [fst snd current_state].
    rewrite Hdelta at 1. now rewrite skipn_past. }
  destruct Hstep as [-> ->]. now rewrite reasoning_fragment_truthy.
Qed.

Lemma step_block_fragments self c pre R post :
  current_state self = Initial ->
  current_text c = previous_text c ++ delta_text c ->
  delta_text c = pre ++ think_start ++ R ++ think_end ++ post ->
  str_in think_start pre = false ->
  str_in think_end (pre ++ think_start ++ R) = false ->
  reasoning_fragment (fst (step self c)) = R
  /\ content_fragment (fst (step self c)) = strip_answer_tags post
  /\ current_state (snd (step self c)) = Content.
Proof.
  intros Hst Hcur Hdelta Hpre Hmid.
  rewrite (step_whole_block self c pre R post Hst Hcur Hdelta Hpre Hmid).
  cbn [fst snd current_state].
  now rewrite reasoning_fragment_truthy, content_fragment_truthy.
Qed.

Lemma step_end_fragments self c pre post :
  current_state self = Thinking ->
  delta_text c = pre ++ think_end ++ post ->
  str_in think_end pre = false ->
  reasoning_fragment (fst (step self c)) = pre
  /\ content_fragment (fst (step self c)) = strip_answer_tags post
  /\ current_state (snd (step self c)) = Content.
Proof.
  intros Hst Hdelta Hpre.
  rewrite (step_end_split self c pre post Hst Hdelta Hpre).
  cbn [fst snd current_state].
  now rewrite reasoning_fragment_truthy, content_fragment_truthy.
Qed.

Lemma step_answer_fragments self c :
  current_state self = Initial ->
  str_in think_start (current_text c) = false ->
  str_in answer_start (delta_text c) = true ->
  reasoning_fragment (fst (step self c)) = []
  /\ content_fragment (fst (step self c))
     = strip_answer_tags (delta_text c)
  /\ current_state (snd (step self c)) = Content.
Proof.
  intros Hst Hbuf Ha. unfold_streaming. rewrite Hst, Hbuf, Ha.
  cbn [fst snd current_state].
  now rewrite content_fragment_truthy.
Qed.

End FragmentsOfACall.

Section Blanks.

Implicit Types (w g x y s p : str) (c : char).

Lemma blank_app w x : blank (w ++ x) <-> blank w /\ blank x.
Proof. unfold blank. rewrite forallb_app. apply andb_true_iff. Qed.

Lemma blank_rev w : blank w -> blank (rev w).
Proof.
  unfold blank. induction w as [|c w IH]; [reflexivity|].
  cbn [forallb rev]. intros H. apply andb_true_iff in H as [Hc Hw].
  rewrite forallb_app, (IH Hw). cbn. now rewrite Hc.
Qed.

(** A string that begins with a character that is not whitespace does not
    occur in whitespace. *)
Lemma blank_no_occurrence c p w :
  isspace c = false -> blank w -> str_in (c :: p) w = false.
Proof.
  intros Hc Hw. apply str_in_false_iff. intros (a & b & ->).
  apply blank_app in Hw as [_ Hw]. apply blank_app in Hw as [Hw _].
  unfold blank in Hw. cbn [forallb] in Hw. now rewrite Hc in Hw.
Qed.

Lemma blank_no_answer_start w : blank w -> str_in answer_start w = false.
Proof. now apply blank_no_occurrence. Qed.

Lemma blank_no_answer_end w : blank w -> str_in answer_end w = false.
Proof. now apply blank_no_occurrence. Qed.

(** A replacement leaves whitespace in front alone. *)
Lemma replace_blank_prefix c p new g x :
  isspace c = false -> blank g ->
  replace (c :: p) new (g ++ x) = g ++ replace (c :: p) new x.
Proof.
  intros Hc. unfold replace, blank.
  induction g as [|d g IH]; [reflexivity|].
  cbn [forallb app replace_go]. intros H.
  apply andb_true_iff in H as [Hd Hg].
  assert (Hne : N.eqb c d = false).
  { apply N.eqb_neq. intros ->. congruence. }
  cbn [startswith]. rewrite Hne. cbn [andb]. now rewrite (IH Hg).
Qed.

Lemma strip_answer_tags_blank_prefix g x :
  blank g -> strip_answer_tags (g ++ x) = g ++ strip_answer_tags x.
Proof.
  intros Hg. unfold strip_answer_tags, answer_start, answer_end, lit.
  cbn [list_ascii_of_string map].
  now rewrite !replace_blank_prefix by (reflexivity || assumption).
Qed.

Lemma strip_answer_tags_blank g : blank g -> strip_answer_tags g = g.
Proof.
  intros Hg. rewrite <- (app_nil_r g) at 1.
  rewrite strip_answer_tags_blank_prefix by assumption.
  apply app_nil_r.
Qed.

Lemma strip_blank_prefix w x : blank w -> strip (w ++ x) = strip x.
Proof. intros Hw. unfold strip. now rewrite lstrip_spaces_app. Qed.

Lemma rstrip_blank_suffix x w : blank w -> rstrip (x ++ w) = rstrip x.
Proof.
  intros Hw. unfold rstrip. rewrite rev_app_distr.
  now rewrite lstrip_spaces_app by now apply blank_rev.
Qed.

Lemma strip_blank_suffix x w : blank w -> strip (x ++ w) = strip x.
Proof.
  intros Hw. unfold strip.
  rewrite <- !lstrip_rstrip_comm. now rewrite rstrip_blank_suffix.
Qed.

(** Whitespace around a text does not change its trimmed form. *)
Lemma strip_blank_around g x w :
  blank g -> blank w -> strip (g ++ x ++ w) = strip x.
Proof.
  intros Hg Hw. now rewrite strip_blank_prefix, strip_blank_suffix.
Qed.

End Blanks.

Section PiecesOfAPart.

Implicit Types (p : answer_part) (rest g x y : str) (lo b : nat).

Lemma part_plain_in p :
  part_plain p ->
  str_in answer_start (part_visible p) = false
  /\ str_in answer_end (part_visible p) = false.
Proof. intros (H1 & H2 & _). now rewrite !str_in_false_iff. Qed.

Lemma bare_plain C :
  str_in answer_start C = false -> str_in answer_end C = false ->
  part_plain (Bare C).
Proof.
  intros H1 H2. repeat split; cbn [part_visible];
    now apply str_in_false_iff.
Qed.

Lemma closing_plain A w :
  str_in answer_start (A ++ w) = false ->
  str_in answer_end (A ++ w) = false ->
  blank w -> part_plain (Closing A w).
Proof.
  intros H1 H2 Hw. repeat split; cbn [part_visible];
    try now apply str_in_false_iff. exact Hw.
Qed.

Lemma part_cut_shift k lo p b :
  part_cut (k + lo) p (k + b) <-> part_cut lo p b.
Proof. destruct p; cbn [part_cut]; unfold cuts; lia. Qed.

Lemma part_text_nil p : part_text p = [] -> part_visible p = [].
Proof.
  destruct p as [C|A w|A|A w]; cbn [part_text part_visible]; intros H;
    [exact H|exfalso..];
    apply (f_equal (@length _)) in H;
    rewrite ?length_app, ?length_answer_start, ?length_answer_end in H;
    cbn [length] in H; lia.
Qed.

(** [answer_start] does not begin inside or across [answer_end]. *)
Lemma answer_start_not_across x y :
  str_in answer_start x = false -> str_in answer_start y = false ->
  str_in answer_start (x ++ answer_end ++ y) = false.
Proof.
  intros Hx Hy. apply str_in_app_apart; [reflexivity | assumption |].
  now rewrite (str_in_across answer_start answer_end y) by reflexivity.
Qed.

Lemma strip_answer_tags_closing_then x y :
  str_in answer_start x = false -> str_in answer_end x = false ->
  str_in answer_start y = false -> str_in answer_end y = false ->
  strip_answer_tags (x ++ answer_end ++ y) = x ++ y.
Proof.
  intros Hsx Hex Hsy Hey. unfold strip_answer_tags.
  rewrite (replace_absent answer_start)
    by (discriminate || now apply answer_start_not_across).
  rewrite (replace_occurrence answer_end [] x y)
    by (reflexivity || discriminate || assumption).
  cbn [app].
  now rewrite (replace_absent answer_end) by (discriminate || assumption).
Qed.

Lemma strip_answer_tags_pair_then x y :
  str_in answer_start x = false -> str_in answer_end x = false ->
  str_in answer_start y = false -> str_in answer_end y = false ->
  strip_answer_tags (answer_start ++ x ++ answer_end ++ y) = x ++ y.
Proof.
  intros Hsx Hex Hsy Hey.
  apply (strip_answer_tags_around [] x y);
    try reflexivity; try assumption.
  now apply answer_start_not_across.
Qed.

(** A delta takes a piece [c0] off the front of a part without cutting a
    tag: with the tags removed the piece is the text it shows, and what is
    left is a part again. *)
Lemma part_prefix lo p (c0 : str) rest :
  part_plain p ->
  part_text p = c0 ++ rest ->
  ~ part_cut lo p (lo + length c0) ->
  exists p',
    part_plain p'
    /\ part_text p' = rest
    /\ strip_answer_tags c0 ++ part_visible p' = part_visible p
    /\ (forall b, ~ part_cut lo p (lo + length c0 + b) ->
                  ~ part_cut 0 p' b).
Proof.
  intros Hp Htext Hcut. pose proof (part_plain_in p Hp) as [Hs He].
  destruct Hp as (_ & _ & Hw).
  destruct p as [C|A w|A|A w]; cbn [part_text part_visible part_cut] in *;
    rewrite ?length_answer_start, ?length_answer_end in *;
    unfold cuts in Hcut.
  - subst C. apply str_in_app_false in Hs as [Hs1 Hs2], He as [He1 He2].
    exists (Bare rest). cbn [part_text part_visible part_cut].
    split; [now apply bare_plain|]. split; [reflexivity|].
    split; [now rewrite strip_answer_tags_absent | intros b _ []].
  - destruct (Nat.eq_dec (length c0) 0) as [H0|H0].
    + apply length_zero_iff_nil in H0. subst c0. cbn [app] in Htext.
      exists (Tagged A w). cbn [part_text part_visible part_cut].
      split; [repeat split; cbn [part_visible];
              try (apply str_in_false_iff; assumption); assumption|].
      split; [now symmetry|]. split; [reflexivity|].
      intros b H. cbn [length] in H.
      rewrite ?length_answer_start, ?length_answer_end.
      unfold cuts in *. lia.
    + symmetry in Htext.
      destruct (app_split_ge _ _ _ _ Htext) as (c1 & Hc0 & Hrest);
        [rewrite length_answer_start; lia|].
      assert (Hlen : length c0 = 8 + length c1)
        by now rewrite Hc0, length_app, length_answer_start.
      destruct (Nat.le_gt_cases (length c1) (length A)) as [Hle|Hgt].
      * symmetry in Hrest.
        destruct (app_split_le _ _ _ _ Hrest Hle) as (A' & -> & ->).
        rewrite <- app_assoc in Hs, He.
        apply str_in_app_false in Hs as [Hs1 Hs2], He as [He1 He2].
        exists (Closing A' w). cbn [part_text part_visible part_cut].
        split; [now apply closing_plain|]. split; [reflexivity|]. split.
        -- now rewrite Hc0, strip_answer_tags_opening, <- app_assoc.
        -- intros b H.
           rewrite ?length_app, ?length_answer_start, ?length_answer_end
             in *.
           unfold cuts in *. lia.
      * symmetry in Hrest. rewrite (app_assoc A) in Hrest.
        destruct (app_split_ge _ _ _ _ Hrest) as (c2 & Hc1 & Hw2).
        { rewrite length_app, length_answer_end. lia. }
        rewrite <- app_assoc in Hc1. subst c1 w.
        apply str_in_app_false in Hs as [Hs1 Hs2], He as [He1 He2].
        apply str_in_app_false in Hs2 as [Hs2 Hs3], He2 as [He2 He3].
        exists (Bare rest). cbn [part_text part_visible part_cut].
        split; [now apply bare_plain|]. split; [reflexivity|].
        split; [|intros b _ []].
        rewrite Hc0, strip_answer_tags_pair_then by assumption.
        now rewrite <- app_assoc.
  - destruct (Nat.eq_dec (length c0) 0) as [H0|H0].
    + apply length_zero_iff_nil in H0. subst c0. cbn [app] in Htext.
      exists (Opened A). cbn [part_text part_visible part_cut].
      split; [repeat split; cbn [part_visible];
              apply str_in_false_iff; assumption|].
      split; [now symmetry|]. split; [reflexivity|].
      intros b H. cbn [length] in H.
      rewrite ?length_answer_start. unfold cuts in *. lia.
    + symmetry in Htext.
      destruct (app_split_ge _ _ _ _ Htext) as (c1 & Hc0 & ->);
        [rewrite length_answer_start; lia|].
      apply str_in_app_false in Hs as [Hs1 Hs2], He as [He1 He2].
      exists (Bare rest). cbn [part_text part_visible part_cut].
      split; [now apply bare_plain|]. split; [reflexivity|].
      split; [|intros b _ []].
      now rewrite Hc0, strip_answer_tags_opening.
  - destruct (Nat.le_gt_cases (length c0) (length A)) as [Hle|Hgt].
    + symmetry in Htext.
      destruct (app_split_le _ _ _ _ Htext Hle) as (A' & -> & ->).
      rewrite <- app_assoc in Hs, He.
      apply str_in_app_false in Hs as [Hs1 Hs2], He as [He1 He2].
      exists (Closing A' w). cbn [part_text part_visible part_cut].
      split; [now apply closing_plain|]. split; [reflexivity|]. split.
      * now rewrite strip_answer_tags_absent, <- app_assoc.
      * intros b H.
        rewrite ?length_app, ?length_answer_end in *.
        unfold cuts in *. lia.
    + symmetry in Htext. rewrite (app_assoc A) in Htext.
      destruct (app_split_ge _ _ _ _ Htext) as (c2 & Hc0 & Hw2).
      { rewrite length_app, length_answer_end. lia. }
      rewrite <- app_assoc in Hc0. subst c0 w.
      apply str_in_app_false in Hs as [Hs1 Hs2], He as [He1 He2].
      apply str_in_app_false in Hs2 as [Hs2 Hs3], He2 as [He2 He3].
      exists (Bare rest). cbn [part_text part_visible part_cut].
      split; [now apply bare_plain|]. split; [reflexivity|].
      split; [|intros b _ []].
      rewrite strip_answer_tags_closing_then by assumption.
      now rewrite <- app_assoc.
Qed.

(** The same for a part that comes after whitespace [g]. *)
Lemma gap_prefix lo g p (c0 : str) rest :
  blank g -> part_plain p ->
  g ++ part_text p = c0 ++ rest ->
  ~ part_cut (lo + length g) p (lo + length c0) ->
  exists g' p',
    blank g' /\ part_plain p'
    /\ g' ++ part_text p' = rest
    /\ strip_answer_tags c0 ++ g' ++ part_visible p' = g ++ part_visible p
    /\ (forall b, ~ part_cut (lo + length g) p (lo + length c0 + b) ->
                  ~ part_cut (length g') p' b).
Proof.
  intros Hg Hp Htext Hcut.
  destruct (Nat.le_gt_cases (length c0) (length g)) as [Hle|Hgt].
  - symmetry in Htext.
    destruct (app_split_le _ _ _ _ Htext Hle) as (g' & -> & ->).
    apply blank_app in Hg as [Hg1 Hg2].
    exists g', p. split; [assumption|]. split; [assumption|].
    split; [reflexivity|]. split.
    + now rewrite strip_answer_tags_blank, <- app_assoc.
    + intros b H Hc. apply H. rewrite length_app.
      replace (lo + (length c0 + length g'))
        with ((lo + length c0) + length g') by lia.
      now apply part_cut_shift.
  - destruct (app_split_ge _ _ _ _ (eq_sym Htext)) as (c1 & -> & Hpart);
      [lia|].
    rewrite length_app in Hcut.
    rewrite Nat.add_assoc in Hcut.
    destruct (part_prefix _ p c1 rest Hp Hpart Hcut)
      as (p' & Hp' & Htext' & Hvis & Hcut').
    exists [], p'. cbn [app length]. split; [reflexivity|].
    split; [assumption|]. split; [assumption|]. split.
    + rewrite strip_answer_tags_blank_prefix by assumption.
      now rewrite <- app_assoc, Hvis.
    + intros b H. apply Hcut'. rewrite length_app in H.
      now rewrite Nat.add_assoc in H.
Qed.

End PiecesOfAPart.

Section FullTextOfLayout.

Implicit Types (w g pre R T A text : str) (p : answer_part) (L : layout).

(** The answer the full-text extractor finds in the trimmed part. *)
Lemma spec_answer_part p :
  part_plain p -> whole_part p ->
  spec_answer (strip (part_text p)) = strip (part_visible p).
Proof.
  intros Hp Hw. pose proof (part_plain_in p Hp) as [Hs He].
  destruct Hp as (_ & _ & Hb).
  destruct p as [C|A w|A|A w]; cbn [part_text part_visible] in *;
    [| | |contradiction].
  - unfold spec_answer.
    now rewrite (str_in_strip_false _ _ Hs).
  - replace (answer_start ++ A ++ answer_end ++ w)
      with ((answer_start ++ A ++ answer_end) ++ w)
      by now rewrite <- !app_assoc.
    rewrite !strip_blank_suffix by assumption.
    apply str_in_app_false in He as [He _].
    rewrite strip_answer_block. unfold spec_answer.
    assert (Hi : index_of answer_start
                   ([] ++ answer_start ++ A ++ answer_end ++ [])
                 = Some (length (@nil char)))
      by exact (index_of_head answer_start (A ++ answer_end ++ [])).
    assert (Hj : index_of answer_end
                   ([] ++ answer_start ++ A ++ answer_end ++ [])
                 = Some (length ([] ++ answer_start ++ A))).
    { change ([] ++ answer_start ++ A ++ answer_end ++ [])
        with (answer_start ++ A ++ answer_end ++ []).
      replace (answer_start ++ A ++ answer_end ++ [])
        with ((answer_start ++ A) ++ answer_end ++ [])
        by now rewrite <- !app_assoc.
      apply index_of_after; [reflexivity|].
      change ([] ++ answer_start ++ A) with (answer_start ++ A).
      now rewrite (str_in_across answer_end answer_start A) by reflexivity. }
    destruct (between_first_shown _ _ _ _ _ Hi Hj) as [Hb' _].
    cbn [app] in Hi, Hj, Hb'. rewrite app_nil_r in Hi, Hj, Hb'.
    assert (H1 : str_in answer_start (answer_start ++ A ++ answer_end)
                 = true) by (apply str_in_index; eauto).
    assert (H2 : str_in answer_end (answer_start ++ A ++ answer_end)
                 = true) by (apply str_in_index; eauto).
    rewrite H1, H2, Hb'. cbn [andb].
    now rewrite (strip_blank_suffix A w).
  - rewrite strip_answer_open. unfold spec_answer.
    assert (H1 : str_in answer_start (answer_start ++ rstrip A) = true)
      by exact (str_in_after answer_start [] (rstrip A)).
    assert (H2 : str_in answer_end (answer_start ++ rstrip A) = false).
    { rewrite (str_in_across answer_end answer_start) by reflexivity.
      destruct (rstrip_prefix A) as [b Hb']. rewrite Hb' in He.
      now apply str_in_app_false in He as [He _]. }
    rewrite H1, H2. cbn [andb].
    unfold after_first. rewrite index_of_head. cbn [Nat.add].
    now rewrite skipn_pre, strip_rstrip.
Qed.

(** The same when whitespace comes before the part. *)
Lemma spec_answer_gap g p :
  blank g -> part_plain p -> whole_part p ->
  spec_answer (strip (g ++ part_text p)) = strip (g ++ part_visible p).
Proof.
  intros Hg Hp Hw. rewrite !strip_blank_prefix by assumption.
  now apply spec_answer_part.
Qed.

(** The full-text result on [pre<think>R</think>T]. *)
Lemma extract_thought {ChatCompletionRequest : Type} pre R T
    (request : ChatCompletionRequest) :
  str_in think_start pre = false ->
  str_in think_end (pre ++ think_start ++ R) = false ->
  extract_reasoning_content
    (pre ++ think_start ++ R ++ think_end ++ T) request
  = (absent_if_empty (strip R), absent_if_empty (spec_answer (strip T))).
Proof.
  intros Hpre Hmid.
  assert (Hi : index_of think_start
                 (pre ++ think_start ++ R ++ think_end ++ T)
               = Some (length pre)) by now apply index_of_after.
  assert (Hj : index_of think_end
                 (pre ++ think_start ++ R ++ think_end ++ T)
               = Some (length (pre ++ think_start ++ R))).
  { replace (pre ++ think_start ++ R ++ think_end ++ T)
      with ((pre ++ think_start ++ R) ++ think_end ++ T)
      by now rewrite <- !app_assoc.
    now apply index_of_after. }
  destruct (between_first_shown _ _ _ _ _ Hi Hj) as [Hb Ha].
  rewrite extract_think_block by (apply str_in_index; eauto).
  unfold spec_reasoning. now rewrite Hb, Ha.
Qed.

(** The full-text result on [pre<think>R], the think block not closed. *)
Lemma extract_unterminated {ChatCompletionRequest : Type} pre R
    (request : ChatCompletionRequest) :
  str_in think_start pre = false ->
  str_in think_end (pre ++ think_start ++ R) = false ->
  extract_reasoning_content (pre ++ think_start ++ R) request
  = (absent_if_empty (strip R), None).
Proof.
  intros Hpre He.
  assert (Hi : index_of think_start (pre ++ think_start ++ R)
               = Some (length pre)) by now apply index_of_after.
  assert (Hs : str_in think_start (pre ++ think_start ++ R) = true)
    by (apply str_in_index; eauto).
  unfold extract_reasoning_content, classify. rewrite Hs, He. cbn [andb].
  rewrite (slice_after_first _ _ Hs). unfold after_first. rewrite Hi.
  now rewrite skipn_past.
Qed.

(** [answer_end] does not occur in whitespace followed by an opening tag
    and a text without it. *)
Lemma answer_end_not_before g A :
  blank g -> str_in answer_end A = false ->
  str_in answer_end (g ++ answer_start ++ A) = false.
Proof.
  intros Hg He. apply str_in_app_apart; [reflexivity | |].
  - now apply blank_no_answer_end.
  - now rewrite (str_in_across answer_end answer_start A) by reflexivity.
Qed.

(** The full-text result on [g<answer>A], without thinking. *)
Lemma extract_answer_open {ChatCompletionRequest : Type} g A
    (request : ChatCompletionRequest) :
  blank g ->
  str_in think_start (g ++ answer_start ++ A) = false ->
  str_in answer_end A = false ->
  extract_reasoning_content (g ++ answer_start ++ A) request
  = (None, absent_if_empty (strip A)).
Proof.
  intros Hg Hs He.
  assert (Ha : str_in answer_start (g ++ answer_start ++ A) = true)
    by apply str_in_after.
  assert (Hi : index_of answer_start (g ++ answer_start ++ A)
               = Some (length g)).
  { apply index_of_after; [reflexivity|]. now apply blank_no_answer_start. }
  assert (Hb : str_in answer_end (g ++ answer_start ++ A) = false)
    by now apply answer_end_not_before.
  unfold extract_reasoning_content, classify.
  rewrite Hs, Ha, Hb. cbn [andb].
  rewrite (slice_after_first _ _ Ha). unfold after_first.
  rewrite Hi. now rewrite skipn_past.
Qed.

(** The full-text result on a layout: its reasoning and its content,
    trimmed, each absent when empty. *)
Lemma extract_layout {ChatCompletionRequest : Type} L
    (request : ChatCompletionRequest) :
  layout_ok L ->
  extract_reasoning_content (layout_text L) request
  = (absent_if_empty (strip (layout_reasoning L)),
     absent_if_empty (strip (layout_content L))).
Proof.
  destruct L as [w pre R g p|w pre R|g p];
    cbn [layout_ok layout_text layout_reasoning layout_content].
  - intros (Hw & Hg & Hpre & Hmid & Hp & Hwhole).
    apply str_in_false_iff in Hpre, Hmid.
    rewrite (app_assoc w pre) in Hmid |- *.
    rewrite extract_thought by assumption.
    now rewrite spec_answer_gap.
  - intros (Hw & Hpre & Hmid). apply str_in_false_iff in Hpre, Hmid.
    rewrite (app_assoc w pre) in Hmid |- *.
    now rewrite extract_unterminated.
  - destruct p as [C|A w|A|A w]; cbn [part_text part_visible].
    + intros (Hs & Ha). apply str_in_false_iff in Hs, Ha.
      now rewrite extract_plain.
    + intros (Hg & Hs & Hp & _). apply str_in_false_iff in Hs.
      pose proof (part_plain_in _ Hp) as [_ He].
      destruct Hp as (_ & _ & Hw). cbn [part_visible] in He.
      apply str_in_app_false in He as [He _].
      rewrite strip_blank_around by assumption.
      apply (extract_answer_block _ request g A w);
        [assumption | reflexivity | now apply blank_no_answer_start |].
      now apply answer_end_not_before.
    + intros (Hg & Hs & Hp & _). apply str_in_false_iff in Hs.
      apply part_plain_in in Hp as [_ He]. cbn [part_visible] in He.
      rewrite strip_blank_prefix by assumption.
      now apply extract_answer_open.
    + intros (_ & _ & _ & []).
Qed.

End FullTextOfLayout.

Section PhasesOfAStream.

Implicit Types (self : parser) (R pre seen g w : str) (p : answer_part)
  (ids : list Z) (deltas : list (str * list Z)).

(** In state [content], whitespace and a part, split without cutting a
    tag, are returned as the text they show. *)
Lemma tail_phase : forall deltas g p self seen ids,
  current_state self = Content ->
  blank g -> part_plain p ->
  final_text deltas = g ++ part_text p ->
  Forall (fun b => ~ part_cut (length g) p b)
         (boundaries 0 (map fst deltas)) ->
  streamed_reasoning (fst (run self (feed seen ids deltas))) = []
  /\ streamed_content (fst (run self (feed seen ids deltas)))
     = g ++ part_visible p.
Proof.
  induction deltas as [|[d i] deltas IH];
    intros g p self seen ids Hst Hg Hp Htext Hb.
  - cbn. split; [reflexivity|].
    cbn in Htext. symmetry in Htext.
    apply app_eq_nil in Htext as [-> Hn].
    symmetry. now apply part_text_nil.
  - rewrite final_text_cons in Htext. symmetry in Htext.
    cbn [map fst boundaries] in Hb. apply Forall_cons_iff in Hb as [Hd Hb].
    destruct (gap_prefix 0 g p d (final_text deltas) Hg Hp Htext Hd)
      as (g' & p' & Hg' & Hp' & Htext' & Hvis & Hcut).
    cbn [feed]. rewrite run_cons.
    rewrite streamed_reasoning_cons, streamed_content_cons.
    match goal with |- context [step self ?c] => set (call := c) end.
    destruct (content_any_step self call Hst) as (-> & -> & Hst').
    destruct (IH g' p' _ (seen ++ d) (ids ++ i) Hst' Hg' Hp'
                (eq_sym Htext')) as [-> ->].
    + apply (boundaries_after _ _ _ _ Hcut) in Hb. exact Hb.
    + split; [reflexivity|exact Hvis].
Qed.

(** In state [thinking], the deltas up to [think_end] are returned as
    reasoning and what comes after it as content. *)
Lemma thinking_part_phase : forall deltas R g p self seen ids,
  current_state self = Thinking ->
  final_text deltas = R ++ think_end ++ g ++ part_text p ->
  str_in think_end R = false ->
  blank g -> part_plain p ->
  Forall (fun b => ~ cuts (length R) (length think_end) b
                   /\ ~ part_cut (length R + length think_end + length g)
                          p b)
         (boundaries 0 (map fst deltas)) ->
  streamed_reasoning (fst (run self (feed seen ids deltas))) = R
  /\ streamed_content (fst (run self (feed seen ids deltas)))
     = g ++ part_visible p.
Proof.
  induction deltas as [|[d i] deltas IH];
    intros R g p self seen ids Hst Htext HR Hg Hp Hb.
  - exfalso. apply (f_equal (@length _)) in Htext.
    rewrite !length_app, length_think_end in Htext. simpl in Htext. lia.
  - rewrite final_text_cons in Htext.
    cbn [map fst boundaries] in Hb. apply Forall_cons_iff in Hb as [Hd Hb].
    cbn [Nat.add] in Hd, Hb. destruct Hd as [Hd1 Hd2]. unfold cuts in Hd1.
    cbn [feed]. rewrite run_cons.
    rewrite streamed_reasoning_cons, streamed_content_cons.
    match goal with |- context [step self ?c] => set (call := c) end.
    destruct (Nat.le_gt_cases (length d) (length R)) as [Hle|Hgt].
    + destruct (app_split_le _ _ _ _ Htext Hle) as (R' & -> & Hrest).
      apply str_in_app_false in HR as [HR1 HR2].
      destruct (thinking_step self call Hst HR1) as (-> & -> & Hst').
      destruct (IH R' g p _ (seen ++ d) (ids ++ i) Hst' Hrest HR2 Hg Hp)
        as [-> ->]; [|split; reflexivity].
      apply (boundaries_after _ _ _ _ (fun b H => H)) in Hb.
      eapply Forall_impl; [|exact Hb]. cbn beta.
      intros b [H1 H2]. rewrite length_app in H1, H2. split.
      * unfold cuts in *. lia.
      * intros H. apply H2.
        replace (length d + length R' + length think_end + length g)
          with (length d + (length R' + length think_end + length g))
          by lia.
        now apply part_cut_shift.
    + rewrite app_assoc in Htext.
      destruct (app_split_ge _ _ _ _ Htext) as (c0 & Hdelta & Hpart).
      { rewrite length_app. lia. }
      rewrite <- app_assoc in Hdelta.
      assert (Hlen : length d = length R + length think_end + length c0)
        by (rewrite Hdelta, !length_app; lia).
      rewrite Hlen in Hd2.
      destruct (gap_prefix _ g p c0 (final_text deltas) Hg Hp Hpart Hd2)
        as (g' & p' & Hg' & Hp' & Htext' & Hvis & Hcut).
      destruct (step_end_fragments self call R c0 Hst Hdelta HR)
        as (-> & -> & Hst').
      destruct (tail_phase deltas g' p' _ (seen ++ d) (ids ++ i)
                  Hst' Hg' Hp' (eq_sym Htext')) as [-> ->].
      * apply (boundaries_after _ _ _ _ (fun b H => H)) in Hb.
        eapply Forall_impl; [|exact Hb]. cbn beta.
        intros b [_ H]. apply Hcut. now rewrite <- Hlen.
      * split; [apply app_nil_r | exact Hvis].
Qed.

(** In state [thinking], text without [think_end] is all reasoning. *)
Lemma thinking_open_phase : forall deltas self seen ids,
  current_state self = Thinking ->
  str_in think_end (final_text deltas) = false ->
  streamed_reasoning (fst (run self (feed seen ids deltas)))
  = final_text deltas
  /\ streamed_content (fst (run self (feed seen ids deltas))) = [].
Proof.
  induction deltas as [|[d i] deltas IH]; intros self seen ids Hst He.
  - split; reflexivity.
  - rewrite final_text_cons in *.
    apply str_in_app_false in He as [He1 He2].
    cbn [feed]. rewrite run_cons.
    rewrite streamed_reasoning_cons, streamed_content_cons.
    match goal with |- context [step self ?c] => set (call := c) end.
    destruct (thinking_step self call Hst He1) as (-> & -> & Hst').
    destruct (IH _ (seen ++ d) (ids ++ i) Hst' He2) as [-> ->].
    split; reflexivity.
Qed.

End PhasesOfAStream.

Section FreshInstanceOnALayout.

Implicit Types (self : parser) (R pre seen g w : str) (p : answer_part)
  (ids : list Z) (deltas : list (str * list Z)) (L : layout).

Lemma lead_within (d w' : str) (ds : list str) :
  firstn (lead_length (length (d ++ w')) (d :: ds)) (d ++ w')
  = d ++ firstn (lead_length (length w') ds) w'.
Proof.
  cbn [lead_length]. rewrite length_app.
  replace (length d <=? length d + length w') with true
    by (symmetry; apply Nat.leb_le; lia).
  replace (length d + length w' - length d) with (length w') by lia.
  apply firstn_app_2.
Qed.

Lemma lead_over (d w : str) (ds : list str) :
  length w < length d ->
  firstn (lead_length (length w) (d :: ds)) w = [].
Proof.
  intros H. cbn [lead_length].
  replace (length d <=? length w) with false
    by (symmetry; apply Nat.leb_gt; lia).
  reflexivity.
Qed.

Lemma streamed_lead_blank L deltas :
  layout_ok L -> blank (streamed_lead L deltas).
Proof.
  intros Hok. unfold streamed_lead.
  assert (Hw : blank (layout_lead L)).
  { destruct L as [w pre R g p|w pre R|g p]; cbn [layout_lead layout_ok] in *;
      [tauto | tauto | reflexivity]. }
  set (k := lead_length _ _). clearbody k.
  rewrite <- (firstn_skipn k (layout_lead L)) in Hw.
  now apply blank_app in Hw as [Hw _].
Qed.

(** A closed think block, from state [initial]: the deltas that end
    inside the leading whitespace are returned as content, the delta with
    [think_start] opens the reasoning. *)
Lemma initial_thought_phase : forall deltas w pre R g p self seen ids,
  current_state self = Initial ->
  final_text deltas
  = w ++ pre ++ think_start ++ R ++ think_end ++ g ++ part_text p ->
  blank w -> blank g ->
  str_in think_start (seen ++ w ++ pre) = false ->
  str_in think_end (w ++ pre ++ think_start ++ R) = false ->
  part_plain p ->
  Forall (fun b => ~ layout_cut (Thought w pre R g p) b)
         (boundaries 0 (map fst deltas)) ->
  streamed_reasoning (fst (run self (feed seen ids deltas))) = R
  /\ streamed_content (fst (run self (feed seen ids deltas)))
     = firstn (lead_length (length w) (map fst deltas)) w
       ++ g ++ part_visible p.
Proof.
  induction deltas as [|[d i] deltas IH];
    intros w pre R g p self seen ids Hst Htext Hw Hg Hpre Hmid Hp Hb.
  - exfalso. apply (f_equal (@length _)) in Htext.
    rewrite !length_app, length_think_start in Htext. simpl in Htext. lia.
  - rewrite final_text_cons in Htext.
    cbn [map fst boundaries] in Hb. apply Forall_cons_iff in Hb as [Hd Hb].
    cbn [Nat.add] in Hd, Hb.
    cbn [feed]. rewrite run_cons.
    rewrite streamed_reasoning_cons, streamed_content_cons.
    match goal with |- context [step self ?c] => set (call := c) end.
    destruct (Nat.le_gt_cases (length d) (length w)) as [Hle|Hgt].
    + destruct (app_split_le _ _ _ _ Htext Hle) as (w' & -> & Hrest).
      apply blank_app in Hw as [Hw1 Hw2].
      replace (seen ++ (d ++ w') ++ pre) with ((seen ++ d) ++ w' ++ pre)
        in Hpre by now rewrite <- !app_assoc.
      assert (Hbuf : str_in think_start (seen ++ d) = false)
        by now apply str_in_app_false in Hpre as [Hpre _].
      rewrite <- app_assoc in Hmid.
      apply str_in_app_false in Hmid as [_ Hmid].
      destruct (initial_plain_step self call Hst Hbuf
                  (blank_no_answer_start d Hw1)) as (-> & -> & Hst').
      destruct (IH w' pre R g p _ (seen ++ d) (ids ++ i)
                  Hst' Hrest Hw2 Hg Hpre Hmid Hp) as [-> ->].
      * apply (boundaries_after _ _ _ _ (fun b H => H)) in Hb.
        eapply Forall_impl; [|exact Hb]. cbn beta.
        intros b H Hc. apply H. cbn [layout_cut] in Hc |- *.
        rewrite length_app. unfold cuts in *.
        destruct Hc as [Hc|[Hc|Hc]]; [left; lia | right; left; lia |].
        right. right.
        replace (length d + length w' + length pre
                 + length think_start + length R + length think_end
                 + length g)
          with (length d + (length w' + length pre
                 + length think_start + length R + length think_end
                 + length g)) by lia.
        now apply part_cut_shift.
      * split; [reflexivity|]. cbn [map fst].
        now rewrite lead_within, <- !app_assoc.
    + cbn [layout_cut] in Hd. unfold cuts in Hd.
      assert (Hlong : length w + length pre + length think_start
                      <= length d) by lia.
      apply str_in_app_false in Hpre as [_ Hpre].
      rewrite (app_assoc w pre) in Htext, Hmid.
      rewrite (app_assoc (w ++ pre)) in Htext.
      destruct (app_split_ge _ _ _ _ Htext) as (d' & Hdelta & Hrest).
      { rewrite !length_app. lia. }
      rewrite <- app_assoc in Hdelta. symmetry in Hrest.
      assert (Hlen : length d
                     = length w + length pre + length think_start
                       + length d')
        by (rewrite Hdelta, !length_app; lia).
      destruct (Nat.le_gt_cases (length d') (length R)) as [Hle|Hgt'].
      * destruct (app_split_le _ _ _ _ Hrest Hle) as (R' & -> & Hrest').
        assert (He : str_in think_end d = false).
        { rewrite Hdelta.
          rewrite !app_assoc in Hmid.
          apply str_in_app_false in Hmid as [Hmid _].
          rewrite <- !app_assoc in Hmid. rewrite <- !app_assoc.
          exact Hmid. }
        rewrite !app_assoc in Hmid.
        apply str_in_app_false in Hmid as [_ HR'].
        destruct (step_opened_fragments self call (w ++ pre) d' Hst
                    eq_refl Hdelta Hpre He) as (-> & -> & Hst').
        destruct (thinking_part_phase deltas R' g p _ (seen ++ d)
                    (ids ++ i) Hst' Hrest' HR' Hg Hp) as [-> ->].
        -- apply (boundaries_after _ _ _ _ (fun b H => H)) in Hb.
           eapply Forall_impl; [|exact Hb]. cbn beta.
           intros b H. cbn [layout_cut] in H. rewrite length_app in H.
           split.
           ++ unfold cuts in *. lia.
           ++ intros Hc. apply H. right. right.
              rewrite Hlen.
              replace (length w + length pre + length think_start
                       + (length d' + length R') + length think_end
                       + length g)
                with ((length w + length pre + length think_start
                       + length d')
                      + (length R' + length think_end + length g))
                by lia.
              now apply part_cut_shift.
        -- split; [reflexivity|]. cbn [map fst].
           now rewrite lead_over.
      * rewrite app_assoc in Hrest.
        destruct (app_split_ge _ _ _ _ Hrest) as (c0 & Hd' & Hpart).
        { rewrite length_app. lia. }
        rewrite <- app_assoc in Hd'. rewrite Hd' in Hdelta.
        assert (Hlen' : length d
                        = length w + length pre + length think_start
                          + length R + length think_end + length c0)
          by (rewrite Hdelta, !length_app; lia).
        assert (Hcut0 : ~ part_cut (length w + length pre
                                    + length think_start + length R
                                    + length think_end + length g) p
                          (length w + length pre + length think_start
                           + length R + length think_end + length c0)).
        { intros Hc. apply Hd. right. right. now rewrite Hlen'. }
        destruct (gap_prefix _ g p c0 (final_text deltas) Hg Hp Hpart
                    Hcut0)
          as (g' & p' & Hg' & Hp' & Htext' & Hvis & Hcut).
        destruct (step_block_fragments self call (w ++ pre) R c0 Hst
                    eq_refl Hdelta Hpre Hmid) as (-> & -> & Hst').
        destruct (tail_phase deltas g' p' _ (seen ++ d) (ids ++ i)
                    Hst' Hg' Hp' (eq_sym Htext')) as [-> ->].
        -- apply (boundaries_after _ _ _ _ (fun b H => H)) in Hb.
           eapply Forall_impl; [|exact Hb]. cbn beta.
           intros b H. apply Hcut. intros Hc. apply H.
           cbn [layout_cut]. right. right. now rewrite Hlen'.
        -- split; [apply app_nil_r|]. cbn [map fst].
           now rewrite lead_over.
Qed.

(** A think block that is not closed, from state [initial]. *)
Lemma initial_unclosed_phase : forall deltas w pre R self seen ids,
  current_state self = Initial ->
  final_text deltas = w ++ pre ++ think_start ++ R ->
  blank w ->
  str_in think_start (seen ++ w ++ pre) = false ->
  str_in think_end (w ++ pre ++ think_start ++ R) = false ->
  Forall (fun b => ~ layout_cut (Unclosed w pre R) b)
         (boundaries 0 (map fst deltas)) ->
  streamed_reasoning (fst (run self (feed seen ids deltas))) = R
  /\ streamed_content (fst (run self (feed seen ids deltas)))
     = firstn (lead_length (length w) (map fst deltas)) w.
Proof.
  induction deltas as [|[d i] deltas IH];
    intros w pre R self seen ids Hst Htext Hw Hpre Hmid Hb.
  - exfalso. apply (f_equal (@length _)) in Htext.
    rewrite !length_app, length_think_start in Htext. simpl in Htext. lia.
  - rewrite final_text_cons in Htext.
    cbn [map fst boundaries] in Hb. apply Forall_cons_iff in Hb as [Hd Hb].
    cbn [Nat.add] in Hd, Hb.
    cbn [feed]. rewrite run_cons.
    rewrite streamed_reasoning_cons, streamed_content_cons.
    match goal with |- context [step self ?c] => set (call := c) end.
    destruct (Nat.le_gt_cases (length d) (length w)) as [Hle|Hgt].
    + destruct (app_split_le _ _ _ _ Htext Hle) as (w' & -> & Hrest).
      apply blank_app in Hw as [Hw1 Hw2].
      replace (seen ++ (d ++ w') ++ pre) with ((seen ++ d) ++ w' ++ pre)
        in Hpre by now rewrite <- !app_assoc.
      assert (Hbuf : str_in think_start (seen ++ d) = false)
        by now apply str_in_app_false in Hpre as [Hpre _].
      rewrite <- app_assoc in Hmid.
      apply str_in_app_false in Hmid as [_ Hmid].
      destruct (initial_plain_step self call Hst Hbuf
                  (blank_no_answer_start d Hw1)) as (-> & -> & Hst').
      destruct (IH w' pre R _ (seen ++ d) (ids ++ i)
                  Hst' Hrest Hw2 Hpre Hmid) as [-> ->].
      * apply (boundaries_after _ _ _ _ (fun b H => H)) in Hb.
        eapply Forall_impl; [|exact Hb]. cbn beta.
        intros b H Hc. apply H. cbn [layout_cut] in Hc |- *.
        rewrite length_app. unfold cuts in *. lia.
      * split; [reflexivity|]. cbn [map fst].
        now rewrite lead_within.
    + cbn [layout_cut] in Hd. unfold cuts in Hd.
      apply str_in_app_false in Hpre as [_ Hpre].
      rewrite (app_assoc w pre) in Htext, Hmid.
      rewrite (app_assoc (w ++ pre)) in Htext.
      destruct (app_split_ge _ _ _ _ Htext) as (d' & Hdelta & ->).
      { rewrite !length_app. lia. }
      rewrite <- app_assoc in Hdelta.
      rewrite !app_assoc in Hmid.
      apply str_in_app_false in Hmid as [Hmid HR'].
      rewrite <- !app_assoc in Hmid.
      replace (w ++ pre ++ think_start ++ d') with d in Hmid
        by now rewrite Hdelta, <- !app_assoc.
      destruct (step_opened_fragments self call (w ++ pre) d' Hst eq_refl
                  Hdelta Hpre Hmid) as (-> & -> & Hst').
      destruct (thinking_open_phase deltas _ (seen ++ d) (ids ++ i)
                  Hst' HR') as [-> ->].
      split; [reflexivity|]. cbn [map fst].
      now rewrite lead_over.
Qed.

(** An output without thinking that has [answer_start] after whitespace,
    from state [initial]. *)
Lemma initial_answer_phase : forall deltas g p self seen ids,
  current_state self = Initial ->
  final_text deltas = g ++ part_text p ->
  blank g ->
  match p with Tagged _ _ | Opened _ => True | _ => False end ->
  str_in think_start (seen ++ g ++ part_text p) = false ->
  part_plain p ->
  Forall (fun b => ~ part_cut (length g) p b)
         (boundaries 0 (map fst deltas)) ->
  streamed_reasoning (fst (run self (feed seen ids deltas))) = []
  /\ streamed_content (fst (run self (feed seen ids deltas)))
     = g ++ part_visible p.
Proof.
  induction deltas as [|[d i] deltas IH];
    intros g p self seen ids Hst Htext Hg Hkind Hs Hp Hb.
  - exfalso. apply (f_equal (@length _)) in Htext.
    destruct p; try contradiction; cbn [part_text] in Htext;
      rewrite !length_app, length_answer_start in Htext;
      simpl in Htext; lia.
  - rewrite final_text_cons in Htext.
    cbn [map fst boundaries] in Hb. apply Forall_cons_iff in Hb as [Hd Hb].
    cbn [Nat.add] in Hd, Hb.
    cbn [feed]. rewrite run_cons.
    rewrite streamed_reasoning_cons, streamed_content_cons.
    match goal with |- context [step self ?c] => set (call := c) end.
    destruct (Nat.le_gt_cases (length d) (length g)) as [Hle|Hgt].
    + destruct (app_split_le _ _ _ _ Htext Hle) as (g' & -> & Hrest).
      apply blank_app in Hg as [Hg1 Hg2].
      replace (seen ++ (d ++ g') ++ part_text p)
        with ((seen ++ d) ++ g' ++ part_text p)
        in Hs by now rewrite <- !app_assoc.
      assert (Hbuf : str_in think_start (seen ++ d) = false)
        by now apply str_in_app_false in Hs as [Hs _].
      destruct (initial_plain_step self call Hst Hbuf
                  (blank_no_answer_start d Hg1)) as (-> & -> & Hst').
      destruct (IH g' p _ (seen ++ d) (ids ++ i)
                  Hst' Hrest Hg2 Hkind Hs Hp) as [-> ->].
      * apply (boundaries_after _ _ _ _ (fun b H => H)) in Hb.
        eapply Forall_impl; [|exact Hb]. cbn beta.
        intros b H Hc. apply H. rewrite length_app.
        now apply part_cut_shift.
      * split; [reflexivity|]. now rewrite <- !app_assoc.
    + assert (Hopen : exists t, part_text p = answer_start ++ t)
        by (destruct p; try contradiction; cbn [part_text]; eauto).
      destruct Hopen as [t Ht].
      assert (Hlong : length g + length answer_start <= length d).
      { destruct p; try contradiction; cbn [part_cut] in Hd;
          unfold cuts in Hd; lia. }
      assert (Hin : str_in answer_start d = true).
      { rewrite Ht, (app_assoc g) in Htext.
        destruct (app_split_ge _ _ _ _ Htext) as (d1 & -> & _).
        { now rewrite length_app. }
        rewrite <- app_assoc. apply str_in_after. }
      assert (Hbuf : str_in think_start (seen ++ d) = false).
      { rewrite <- Htext, app_assoc in Hs.
        now apply str_in_app_false in Hs as [Hs _]. }
      destruct (gap_prefix 0 g p d (final_text deltas) Hg Hp
                  (eq_sym Htext) Hd)
        as (g' & p' & Hg' & Hp' & Htext' & Hvis & Hcut).
      destruct (step_answer_fragments self call Hst Hbuf Hin)
        as (-> & -> & Hst').
      destruct (tail_phase deltas g' p' _ (seen ++ d) (ids ++ i)
                  Hst' Hg' Hp' (eq_sym Htext')) as [-> ->].
      * apply (boundaries_after _ _ _ _ Hcut) in Hb. exact Hb.
      * split; [reflexivity | exact Hvis].
Qed.

(** What a fresh instance streams on a layout split without cutting a
    delimiter: the reasoning of the layout and, after the part of the
    leading whitespace that came in deltas of its own, its content. *)
Lemma stream_layout tokenizer deltas L :
  final_text deltas = layout_text L ->
  layout_ok L ->
  split_keeps_delimiters L deltas ->
  streamed_reasoning (stream tokenizer deltas) = layout_reasoning L
  /\ streamed_content (stream tokenizer deltas)
     = streamed_lead L deltas ++ layout_content L.
Proof.
  unfold split_keeps_delimiters, stream, streamed_lead.
  destruct L as [w pre R g p|w pre R|g p];
    cbn [layout_ok layout_text layout_reasoning layout_content
         layout_lead].
  - intros Htext (Hw & Hg & Hpre & Hmid & Hp & _) Hb.
    apply str_in_false_iff in Hpre, Hmid.
    now apply (initial_thought_phase deltas w pre R g p).
  - intros Htext (Hw & Hpre & Hmid) Hb.
    apply str_in_false_iff in Hpre, Hmid.
    rewrite app_nil_r.
    now apply (initial_unclosed_phase deltas w pre R).
  - rewrite firstn_nil. cbn [app].
    destruct p as [C|A w|A|A w]; cbn [part_text part_visible] in *.
    + intros Htext (Hs & Ha) _. apply str_in_false_iff in Hs, Ha.
      rewrite <- Htext in *.
      now apply plain_phase.
    + intros Htext (Hg & Hs & Hp & _) Hb. apply str_in_false_iff in Hs.
      now apply (initial_answer_phase deltas g (Tagged A w)).
    + intros Htext (Hg & Hs & Hp & _) Hb. apply str_in_false_iff in Hs.
      now apply (initial_answer_phase deltas g (Opened A)).
    + intros _ (_ & _ & _ & []).
Qed.

End FreshInstanceOnALayout.

Section Refinement.

Lemma absent_if_empty_present (s : str) : absent_if_empty s = present s.
Proof. now destruct s. Qed.




End Refinement.
